(** * Note codes: the hashing scheme, the formatter and the two-way index

    A shallow embedding of [src/main.ts] of the note-codes plugin:
    [hashString], [formatHash], the two [Map]s of the [NoteCodes] class with
    [addPath], [removePath], [getHashForPath] and [openNoteForHash], and
    [NCSuggestModal.getSuggestions].

    Conventions of the embedding.
    - A JavaScript string is the list of its UTF-16 code units ([jsstring]).
    - A [Uint8Array] is a [list byte].
    - A [Map] is the list of its entries in iteration order ([JsMap]).
    - The platform functions the plugin calls are embedded next to it:
      [TextEncoder.encode] as [Utf8.encode], [crypto.subtle.digest "SHA-256"]
      as [SHA256.digest], [String.prototype.toUpperCase] as [toUpperCase].
    - Every method of the class is first given as run to completion. The
      suspension of [addPath] at its [await], with other handlers running
      in between, is in the event loop ([react]) at the end of the model. *)

From Stdlib Require Import Ascii String.
From Stdlib Require Import List NArith ZArith Lia Bool.
From Stdlib.Strings Require Import Byte.
Import ListNotations.

Set Implicit Arguments.

(** ** JavaScript strings *)

Definition code_unit := N.
Definition jsstring := list code_unit.

(** A string literal of the source, all of whose characters are ASCII. *)
Definition lit (s : string) : jsstring :=
  map N_of_ascii (list_ascii_of_string s).

Definition jsstring_eqb (a b : jsstring) : bool :=
  if list_eq_dec N.eq_dec a b then true else false.

Fixpoint startsWith (s prefix : jsstring) : bool :=
  match prefix, s with
  | [], _ => true
  | _ :: _, [] => false
  | p :: prefix', c :: s' => N.eqb c p && startsWith s' prefix'
  end.

(** [s.slice(start)] and [s.slice(0, stop)] for the non-negative indices the
    source uses. *)
Definition slice_from (start : nat) (s : jsstring) : jsstring := skipn start s.
Definition slice_to (stop : nat) (s : jsstring) : jsstring := firstn stop s.

(** [fill] repeated and cut to [n] units, as [padStart] and [padEnd] build
    their padding. *)
Fixpoint padding (n : nat) (fill rest : jsstring) : jsstring :=
  match n with
  | O => []
  | S n' =>
      match rest with
      | c :: rest' => c :: padding n' fill rest'
      | [] =>
          match fill with
          | c :: fill' => c :: padding n' fill fill'
          | [] => []
          end
      end
  end.

Definition padStart (target : nat) (fill s : jsstring) : jsstring :=
  padding (target - length s) fill fill ++ s.

Definition padEnd (target : nat) (fill s : jsstring) : jsstring :=
  s ++ padding (target - length s) fill fill.

Definition byte_of_N (n : N) : byte :=
  match Byte.of_N (n mod 256) with
  | Some b => b
  | None => x00
  end.

(** ** [TextEncoder.encode]: UTF-16 code units to UTF-8 bytes *)

Module Utf8.

Definition is_high (u : N) : bool := (55296 <=? u)%N && (u <=? 56319)%N.
Definition is_low (u : N) : bool := (56320 <=? u)%N && (u <=? 57343)%N.

Definition continuation (n : N) : byte := byte_of_N (128 + N.land n 63).

Definition encode_point (cp : N) : list byte :=
  if (cp <? 128)%N then [byte_of_N cp]
  else if (cp <? 2048)%N then
    [byte_of_N (192 + N.shiftr cp 6); continuation cp]
  else if (cp <? 65536)%N then
    [byte_of_N (224 + N.shiftr cp 12); continuation (N.shiftr cp 6);
     continuation cp]
  else
    [byte_of_N (240 + N.shiftr cp 18); continuation (N.shiftr cp 12);
     continuation (N.shiftr cp 6); continuation cp].

(** A surrogate pair is one code point; a surrogate on its own is encoded as
    U+FFFD. *)
Fixpoint encode (s : jsstring) : list byte :=
  match s with
  | [] => []
  | u :: rest =>
      if is_high u then
        match rest with
        | v :: rest' =>
            if is_low v then
              encode_point (65536 + N.shiftl (u - 55296) 10 + (v - 56320))
                ++ encode rest'
            else encode_point 65533 ++ encode rest
        | [] => encode_point 65533
        end
      else if is_low u then encode_point 65533 ++ encode rest
      else encode_point u ++ encode rest
  end.

End Utf8.

(** ** [crypto.subtle.digest("SHA-256", data)] (FIPS 180-4) *)

Module SHA256.

Definition word (n : N) : N := (n mod 4294967296)%N.
Definition add (a b : N) : N := word (a + b).
Definition rotr (k x : N) : N := word (N.lor (N.shiftr x k) (N.shiftl x (32 - k))).

Definition Ch (x y z : N) : N := N.lxor (N.land x y) (N.ldiff z x).
Definition Maj (x y z : N) : N :=
  N.lxor (N.lxor (N.land x y) (N.land x z)) (N.land y z).
Definition Sigma0 (x : N) : N := N.lxor (N.lxor (rotr 2 x) (rotr 13 x)) (rotr 22 x).
Definition Sigma1 (x : N) : N := N.lxor (N.lxor (rotr 6 x) (rotr 11 x)) (rotr 25 x).
Definition sigma0 (x : N) : N := N.lxor (N.lxor (rotr 7 x) (rotr 18 x)) (N.shiftr x 3).
Definition sigma1 (x : N) : N := N.lxor (N.lxor (rotr 17 x) (rotr 19 x)) (N.shiftr x 10).

Definition primes : list N :=
  [2; 3; 5; 7; 11; 13; 17; 19; 23; 29; 31; 37; 41; 43; 47; 53; 59; 61; 67;
   71; 73; 79; 83; 89; 97; 101; 103; 107; 109; 113; 127; 131; 137; 139; 149;
   151; 157; 163; 167; 173; 179; 181; 191; 193; 197; 199; 211; 223; 227; 229;
   233; 239; 241; 251; 257; 263; 269; 271; 277; 281; 283; 293; 307; 311]%N.

(** Largest [r] below [2^bits] with [r^3 <= n], one bit at a time. *)
Fixpoint cube_root (bits : nat) (n r : N) : N :=
  match bits with
  | O => r
  | S bits' =>
      let r' := (r + N.shiftl 1 (N.of_nat bits'))%N in
      cube_root bits' n (if (r' * r' * r' <=? n)%N then r' else r)
  end.

(** The round constants: the first 32 bits of the fractional parts of the
    cube roots of the first 64 primes. *)
Definition K : list N :=
  Eval vm_compute in map (fun p => word (cube_root 36 (N.shiftl p 96) 0)) primes.

(** The initial hash value: the first 32 bits of the fractional parts of the
    square roots of the first 8 primes. *)
Definition H0 : list N :=
  Eval vm_compute in map (fun p => word (N.sqrt (N.shiftl p 64))) (firstn 8 primes).

Definition be_bytes (count : nat) (n : N) : list byte :=
  map (fun i => byte_of_N (N.shiftr n (8 * N.of_nat i))) (rev (seq 0 count)).

Fixpoint be_value (bs : list byte) (acc : N) : N :=
  match bs with
  | [] => acc
  | b :: bs' => be_value bs' (acc * 256 + Byte.to_N b)%N
  end.

Definition pad (msg : list byte) : list byte :=
  let len := length msg in
  let zeros := (64 - (len + 9) mod 64) mod 64 in
  msg ++ [x80] ++ repeat x00 zeros ++ be_bytes 8 (8 * N.of_nat len).

Fixpoint words_of (count : nat) (bs : list byte) : list N :=
  match count with
  | O => []
  | S count' => be_value (firstn 4 bs) 0 :: words_of count' (skipn 4 bs)
  end.

(** The message schedule, kept newest word first. *)
Fixpoint schedule (steps : nat) (w : list N) : list N :=
  match steps with
  | O => w
  | S steps' =>
      let next :=
        add (add (sigma1 (nth 1 w 0%N)) (nth 6 w 0%N))
            (add (sigma0 (nth 14 w 0%N)) (nth 15 w 0%N)) in
      schedule steps' (next :: w)
  end.

Record regs := Regs { ra : N; rb : N; rc : N; rd : N; re : N; rf : N; rg : N; rh : N }.

Definition round (s : regs) (kw : N * N) : regs :=
  let t1 := add (add (add (rh s) (Sigma1 (re s))) (Ch (re s) (rf s) (rg s)))
                (add (fst kw) (snd kw)) in
  let t2 := add (Sigma0 (ra s)) (Maj (ra s) (rb s) (rc s)) in
  Regs (add t1 t2) (ra s) (rb s) (rc s) (add (rd s) t1) (re s) (rf s) (rg s).

Definition regs_of (h : list N) : regs :=
  Regs (nth 0 h 0%N) (nth 1 h 0%N) (nth 2 h 0%N) (nth 3 h 0%N)
       (nth 4 h 0%N) (nth 5 h 0%N) (nth 6 h 0%N) (nth 7 h 0%N).

Definition list_of (s : regs) : list N :=
  [ra s; rb s; rc s; rd s; re s; rf s; rg s; rh s].

Definition compress (h : list N) (block : list byte) : list N :=
  let w := rev (schedule 48 (rev (words_of 16 block))) in
  let s := fold_left round (combine K w) (regs_of h) in
  map (fun p => add (fst p) (snd p)) (combine h (list_of s)).

Fixpoint blocks (count : nat) (bs : list byte) (h : list N) : list N :=
  match count with
  | O => h
  | S count' => blocks count' (skipn 64 bs) (compress h (firstn 64 bs))
  end.

Definition digest (msg : list byte) : list byte :=
  let padded := pad msg in
  flat_map (be_bytes 4) (blocks (length padded / 64) padded H0).

Definition hex (bs : list byte) : N := be_value bs 0.

End SHA256.

(** ** [String.prototype.toUpperCase]

    Upper-casing works code point by code point. ASCII letters and the code
    points whose upper-case form contains an ASCII character are given in
    full; every other code unit is kept as it is: it is not ASCII and neither
    is its upper-case form. *)

Definition upper_unit (u : code_unit) : jsstring :=
  if (97 <=? u)%N && (u <=? 122)%N then [(u - 32)%N]
  else
    match u with
    | 223%N => lit "SS"
    | 305%N => lit "I"
    | 329%N => [700; 78]%N
    | 383%N => lit "S"
    | 496%N => [74; 780]%N
    | 7830%N => [72; 817]%N
    | 7831%N => [84; 776]%N
    | 7832%N => [87; 778]%N
    | 7833%N => [89; 778]%N
    | 7834%N => [65; 702]%N
    | 64256%N => lit "FF"
    | 64257%N => lit "FI"
    | 64258%N => lit "FL"
    | 64259%N => lit "FFI"
    | 64260%N => lit "FFL"
    | 64261%N => lit "ST"
    | 64262%N => lit "ST"
    | _ => [u]
    end.

Definition toUpperCase (s : jsstring) : jsstring := flat_map upper_unit s.

(** ** Numbers: the 32-bit operators and [Number.prototype.toString] *)

Definition toInt32 (z : Z) : Z := ((z + 2 ^ 31) mod 2 ^ 32 - 2 ^ 31)%Z.

(** [a << b] and [a | b]. *)
Definition shl (a b : Z) : Z := toInt32 (Z.shiftl (toInt32 a) (b mod 32)).
Definition bor (a b : Z) : Z := toInt32 (Z.lor (toInt32 a) (toInt32 b)).

Definition digit_chars : jsstring := lit "0123456789abcdefghijklmnopqrstuvwxyz".

Definition digit_char (d : N) : code_unit := nth (N.to_nat d) digit_chars 0%N.

Fixpoint digits (fuel : nat) (radix n : N) (acc : jsstring) : jsstring :=
  match fuel with
  | O => acc
  | S fuel' =>
      let acc' := digit_char (n mod radix) :: acc in
      if (n / radix =? 0)%N then acc' else digits fuel' radix (n / radix) acc'
  end.

(** [n.toString(radix)] for an integer [n]. *)
Definition toString (radix : N) (n : Z) : jsstring :=
  let magnitude := Z.to_N (Z.abs n) in
  let body := digits (S (N.to_nat (N.size magnitude))) radix magnitude [] in
  if (n <? 0)%Z then lit "-" ++ body else body.

(** ** Objects used as tables and [Map]s *)

(** A property read [o[k]] on an object built from a list of entries, where
    a later entry for the same key replaces an earlier one; [None] is
    [undefined]. *)
Fixpoint obj_get (V : Type) (o : list (code_unit * V)) (k : code_unit) : option V :=
  match o with
  | [] => None
  | (k', v) :: o' =>
      match obj_get o' k with
      | Some v' => Some v'
      | None => if (k =? k')%N then Some v else None
      end
  end.

Module JsMap.

(** The entries in iteration order, which is insertion order. *)
Definition t (V : Type) := list (jsstring * V).

Definition empty (V : Type) : t V := [].

Fixpoint get (V : Type) (m : t V) (k : jsstring) : option V :=
  match m with
  | [] => None
  | (k', v) :: m' => if jsstring_eqb k k' then Some v else get m' k
  end.

(** [set] keeps the position of a key that is already there and appends a
    new one. *)
Fixpoint set (V : Type) (m : t V) (k : jsstring) (v : V) : t V :=
  match m with
  | [] => [(k, v)]
  | (k', v') :: m' =>
      if jsstring_eqb k k' then (k', v) :: m' else (k', v') :: set m' k v
  end.

(** [delete] takes the key's entry out. *)
Definition delete (V : Type) (m : t V) (k : jsstring) : t V :=
  filter (fun e => negb (jsstring_eqb k (fst e))) m.

Definition entries (V : Type) (m : t V) : list (jsstring * V) := m.

Definition keys (V : Type) (m : t V) : list jsstring := map fst m.

End JsMap.

(** * The plugin *)

Definition jsBase32Alphabet : jsstring := lit "0123456789abcdefghijklmnopqrstuv".
Definition base32Alphabet : jsstring := lit "0123456789ABCDEFGHJKMNPQRSTVWXYZ".
Definition ALPHABET_LENGTH : nat := length base32Alphabet.

(** [Object.fromEntries] of the pairs [[char, base32Alphabet[index]]]. *)
Definition jsBase32Mapping : list (code_unit * option code_unit) :=
  map (fun ci => (fst ci, nth_error base32Alphabet (snd ci)))
      (combine jsBase32Alphabet (seq 0 (length jsBase32Alphabet))).

Definition base32Mapping : list (code_unit * code_unit) :=
  [ (N_of_ascii "O", N_of_ascii "0");
    (N_of_ascii "L", N_of_ascii "1");
    (N_of_ascii "I", N_of_ascii "1");
    (N_of_ascii "U", N_of_ascii "V") ].

(** [bytes[i]] as an operand of [<<]: a byte, or [undefined], which the
    operator turns into 0. *)
Definition byte_at (bytes : list byte) (i : nat) : Z :=
  match nth_error bytes i with
  | Some b => Z.of_N (Byte.to_N b)
  | None => 0%Z
  end.

(** An element of the destructured array: [undefined] past its end. *)
Definition element (A : Type) (l : list (option A)) (i : nat) : option A :=
  match nth_error l i with
  | Some x => x
  | None => None
  end.

(** A value inside a template literal. *)
Definition interpolate (c : option code_unit) : jsstring :=
  match c with
  | Some u => [u]
  | None => lit "undefined"
  end.

Definition hashString (string : jsstring) : jsstring :=
  let data := Utf8.encode string in
  let bytes := SHA256.digest data in
  let num :=
    Z.rem (bor (bor (shl (byte_at bytes 0) 16) (shl (byte_at bytes 1) 8))
               (shl (byte_at bytes 2) 0))
          (Z.of_nat ALPHABET_LENGTH ^ 4) in
  let chars :=
    map (fun char => match obj_get jsBase32Mapping char with
                     | Some v => v
                     | None => None
                     end)
        (padStart 4 (lit "0") (toString (N.of_nat ALPHABET_LENGTH) num)) in
  interpolate (element chars 0) ++ interpolate (element chars 1) ++ lit "-"
    ++ interpolate (element chars 2) ++ interpolate (element chars 3).

Record Entry := { hash : jsstring; path : jsstring }.

(** [base32Alphabet.includes(c)] for a string [c] of one code unit. *)
Definition includes (s : jsstring) (c : code_unit) : bool := existsb (N.eqb c) s.

Definition formatHash (hash : jsstring) : jsstring :=
  let hash :=
    slice_to 4
      (filter (includes base32Alphabet)
         (map (fun c => match obj_get base32Mapping c with
                        | Some v => v
                        | None => c
                        end)
              (toUpperCase hash))) in
  if (2 <? length hash)%nat
  then slice_to 2 hash ++ lit "-" ++ slice_from 2 hash
  else hash.

Record NoteCodes := {
  hashesToPaths : JsMap.t jsstring;
  pathsToHashes : JsMap.t jsstring
}.

Definition init : NoteCodes :=
  {| hashesToPaths := JsMap.empty jsstring; pathsToHashes := JsMap.empty jsstring |}.

(** [query] formatted is also written back to the input element: the first
    component of the result. *)
Definition getSuggestions (plugin : NoteCodes) (query : jsstring)
  : jsstring * list Entry :=
  let query := formatHash query in
  let results :=
    fold_left
      (fun results e =>
         if startsWith (fst e) query
         then results ++ [{| hash := fst e; path := snd e |}]
         else results)
      (JsMap.entries (hashesToPaths plugin)) [] in
  (query, results).

Definition addPath (this : NoteCodes) (path : jsstring) : NoteCodes * jsstring :=
  let hash := hashString path in
  let this :=
    {| hashesToPaths := JsMap.set (hashesToPaths this) hash path;
       pathsToHashes := pathsToHashes this |} in
  let this :=
    {| hashesToPaths := hashesToPaths this;
       pathsToHashes := JsMap.set (pathsToHashes this) path hash |} in
  (this, hash).

(** A string in a condition counts as true unless it is [undefined] or
    empty: the branches on [Some (_ :: _)] below. *)
Definition removePath (this : NoteCodes) (path : jsstring) : NoteCodes :=
  match JsMap.get (pathsToHashes this) path with
  | Some (u :: h) =>
      {| hashesToPaths := JsMap.delete (hashesToPaths this) (u :: h);
         pathsToHashes := JsMap.delete (pathsToHashes this) path |}
  | _ => this
  end.

Definition getHashForPath (this : NoteCodes) (path : jsstring)
  : NoteCodes * jsstring :=
  match JsMap.get (pathsToHashes this) path with
  | Some (u :: h) => (this, u :: h)
  | _ => addPath this path
  end.

(** What [openNoteForHash] shows or opens. *)
Inductive outcome :=
| NoSuchNoteCode (shown : jsstring)
| OpenFile (path : jsstring)
| FileNotFound (path : jsstring).

(** [getFileByPath] is the vault's: [vault path] tells whether a file is
    there. *)
Definition openNoteForHash (vault : jsstring -> bool) (this : NoteCodes)
  (hash : jsstring) : NoteCodes * outcome :=
  let hash := formatHash hash in
  let path := JsMap.get (hashesToPaths this) hash in
  match path with
  | Some (u :: p) =>
      if vault (u :: p) then (this, OpenFile (u :: p))
      else (this, FileNotFound (u :: p))
  | _ => (this, NoSuchNoteCode (padEnd 5 (lit "_") hash))
  end.

(** The index is changed by [addPath] and [removePath] only, which the
    handlers of the vault's events call. *)
Inductive op :=
| AddPath (path : jsstring)
| RemovePath (path : jsstring).

Definition step (this : NoteCodes) (o : op) : NoteCodes :=
  match o with
  | AddPath p => fst (addPath this p)
  | RemovePath p => removePath this p
  end.

Definition run (ops : list op) (this : NoteCodes) : NoteCodes :=
  fold_left step ops this.

Definition reachable (this : NoteCodes) : Prop :=
  exists ops, this = run ops init.

(** ** The hash as the specification words it

    The six steps of the algorithm, each from its sentence, to be compared
    with [hashString]. *)

Module Spec.

Definition byte_value (digest : list byte) (i : nat) : N :=
  Byte.to_N (nth i digest x00).

(** The first three bytes, big-endian, as a 24-bit integer. *)
Definition packed (digest : list byte) : N :=
  (byte_value digest 0 * 2 ^ 16 + byte_value digest 1 * 2 ^ 8
   + byte_value digest 2)%N.

Definition reduced (digest : list byte) : N := (packed digest mod 32 ^ 4)%N.

(** The four base-32 digits, most significant first. *)
Definition base32_digits (n : N) : list N :=
  [(n / 32 ^ 3) mod 32; (n / 32 ^ 2) mod 32; (n / 32) mod 32; n mod 32]%N.

Definition rendered (n : N) : jsstring :=
  map (fun d => nth (N.to_nat d) jsBase32Alphabet 0%N) (base32_digits n).

(** The substitution table: the i-th rendering digit to the i-th canonical
    symbol. *)
Definition table : list (code_unit * code_unit) :=
  combine jsBase32Alphabet base32Alphabet.

Definition substitute (c : code_unit) : code_unit :=
  match find (fun e => (fst e =? c)%N) table with
  | Some e => snd e
  | None => c
  end.

Definition separate (s : jsstring) : jsstring :=
  firstn 2 s ++ lit "-" ++ skipn 2 s.

Definition hash (p : jsstring) : jsstring :=
  separate (map substitute (rendered (reduced (SHA256.digest (Utf8.encode p))))).

(** A symbol of the canonical alphabet: a digit, or an upper-case letter
    other than O, I, L and U. *)
Definition canonical (c : code_unit) : Prop :=
  (48 <= c <= 57)%N \/
  ((65 <= c <= 90)%N /\ c <> N_of_ascii "O" /\ c <> N_of_ascii "I"
   /\ c <> N_of_ascii "L" /\ c <> N_of_ascii "U").

(** The symbols of a code: its characters other than the separator. *)
Definition symbols (code : jsstring) : jsstring :=
  filter (fun c => negb (c =? N_of_ascii "-")%N) code.

End Spec.

(** The index after the three entries of the search example, inserted in
    that order. *)
Definition search_example : NoteCodes :=
  {| hashesToPaths :=
       JsMap.set
         (JsMap.set (JsMap.set (JsMap.empty jsstring) (lit "AB-CD") (lit "x"))
            (lit "AB-EF") (lit "y"))
         (lit "GH-IJ") (lit "z");
     pathsToHashes := JsMap.empty jsstring |}.

(** The paths an operation sequence adds. *)
Definition added (ops : list op) : list jsstring :=
  flat_map (fun o => match o with AddPath p => [p] | RemovePath _ => [] end) ops.

(** The paths an operation sequence removes. *)
Definition removed (ops : list op) : list jsstring :=
  flat_map (fun o => match o with AddPath _ => [] | RemovePath p => [p] end) ops.

(** No other path of the list has the code of [p]. *)
Definition unshared (paths : list jsstring) (p : jsstring) : Prop :=
  forall q, In q paths -> hashString q = hashString p -> q = p.

(** What leaves code [c] without an entry while [p] is tracked under it:
    a different path with that code was removed while it was tracked, and
    no path with that code has been added since. *)
Definition entry_lost (ops : list op) (p c : jsstring) : Prop :=
  exists before q after,
    ops = before ++ RemovePath q :: after
    /\ q <> p /\ hashString q = c
    /\ JsMap.get (pathsToHashes (run before init)) q <> None
    /\ (forall r, In r (added after) -> hashString r <> c).

(** [formatHash] in steps: the symbols of the alphabet after upper-casing
    and substitution, the four it keeps, and the separator. *)
Definition normalized (s : jsstring) : jsstring :=
  filter (includes base32Alphabet)
    (map (fun c => match obj_get base32Mapping c with
                   | Some v => v
                   | None => c
                   end)
         (toUpperCase s)).

Definition kept (s : jsstring) : jsstring := slice_to 4 (normalized s).

Definition separated (s : jsstring) : jsstring :=
  if (2 <? length s)%nat then slice_to 2 s ++ lit "-" ++ slice_from 2 s else s.

(** The i-th symbol of the canonical alphabet. *)
Definition symbol (d : N) : code_unit := nth (N.to_nat d) base32Alphabet 0%N.

(** [digits] with the leading zeros: the [k] last base-32 digits of [n]. *)
Fixpoint fixed (k : nat) (n : N) : jsstring :=
  match k with
  | O => []
  | S k' => fixed k' (n / 32) ++ [digit_char (n mod 32)]
  end.

(** The code of a reduced digest value: its four symbols and the
    separator. *)
Definition code_of (n : N) : jsstring :=
  [symbol ((n / 32 ^ 3) mod 32); symbol ((n / 32 ^ 2) mod 32); N_of_ascii "-";
   symbol ((n / 32) mod 32); symbol (n mod 32)]%N.

(** Membership in the canonical alphabet, decided on the character
    ranges. *)
Definition canonicalb (c : code_unit) : bool :=
  ((48 <=? c)%N && (c <=? 57)%N)
  || ((65 <=? c)%N && (c <=? 90)%N
      && (negb (c =? N_of_ascii "O")%N
          && (negb (c =? N_of_ascii "I")%N
              && (negb (c =? N_of_ascii "L")%N && negb (c =? N_of_ascii "U")%N)))).

(** ** Properties of an index state *)

(** Every tracked path is filed under its own hash. *)
Definition codes_hashed (this : NoteCodes) : Prop :=
  forall p c, JsMap.get (pathsToHashes this) p = Some c -> c = hashString p.

(** Every entry of code→path names a path tracked under that code. *)
Definition owners_tracked (this : NoteCodes) : Prop :=
  forall c p, In (c, p) (JsMap.entries (hashesToPaths this)) ->
              JsMap.get (pathsToHashes this) p = Some c.

(** The code of every tracked path has some entry in code→path. *)
Definition index_consistent (this : NoteCodes) : Prop :=
  forall p c, JsMap.get (pathsToHashes this) p = Some c ->
              exists q, JsMap.get (hashesToPaths this) c = Some q.

(** * The rest of the plugin

    The suggestion modal, the commands, the status bar and the handlers that
    [onload] registers. What an element shows is kept as text; the elements
    themselves, the menu and the settings are left out. The methods are
    given as one call run to completion, like those of the index; how calls
    overlap is in the event loop that follows them. *)

(** ** The suggestion modal *)

(** The text of a rendered suggestion: the path, the part of the code in
    bold, which is the value of the input, and the rest of the code. *)
Record rendering := { title : jsstring; strong : jsstring; rest : jsstring }.

Definition renderSuggestion (inputEl_value : jsstring) (e : Entry) : rendering :=
  {| title := path e;
     strong := inputEl_value;
     rest := slice_from (length inputEl_value) (hash e) |}.

Definition onChooseSuggestion (vault : jsstring -> bool) (plugin : NoteCodes)
  (e : Entry) : NoteCodes * outcome :=
  openNoteForHash vault plugin (hash e).

(** ** Commands *)

(** [active] is the path of the workspace's active file, if there is one. *)
Definition getHashForActiveFile (this : NoteCodes) (active : option jsstring)
  : NoteCodes * option jsstring :=
  match active with
  | None => (this, None)
  | Some path => (fst (getHashForPath this path), Some (snd (getHashForPath this path)))
  end.

(** The second component is the text written to the clipboard, if any. *)
Definition copyNoteCode (this : NoteCodes) (active : option jsstring)
  : NoteCodes * option jsstring :=
  let r := getHashForActiveFile this active in
  match snd r with
  | Some (u :: h) => (fst r, Some (u :: h))
  | _ => (fst r, None)
  end.

Definition copyNoteCodeURL (this : NoteCodes) (active : option jsstring)
  : NoteCodes * option jsstring :=
  let r := getHashForActiveFile this active in
  match snd r with
  | Some (u :: h) => (fst r, Some (lit "obsidian://note-codes/open?code=" ++ u :: h))
  | _ => (fst r, None)
  end.

(** ** The status bar *)

(** The text of the status bar item and, where the mobile drawer is there,
    of the element added to it. *)
Record status := { statusBarText : jsstring; drawerText : option jsstring }.

Definition setStatusBar (hasDrawer : bool) (this : NoteCodes)
  (file : option jsstring) : NoteCodes * status :=
  let r :=
    match file with
    | Some path => getHashForPath this path
    | None => (this, lit "__-__")
    end in
  (fst r,
   {| statusBarText := snd r;
      drawerText := if hasDrawer then Some (snd r) else None |}).

(** ** The handlers and the event loop

    A call of [addPath] writes to the maps when its digest is there, and no
    handler waits for it: other handlers run between the call and the write,
    and digests are taken to resolve in any order. A state of the plugin is
    the index together with the calls of [addPath] that have not written
    yet, each with what waits for its result. [removePath], the lookups and
    the check of [getHashForPath] run at once. *)

Inductive waiting :=
| Nothing
| StatusBar
| Clipboard
| ClipboardURL.

Record plugin := {
  index : NoteCodes;
  pending : list (jsstring * waiting)
}.

(** What a handler reads from the application when it runs. *)
Record env := {
  activeFile : option jsstring;
  hasDrawer : bool;
  vault : jsstring -> bool
}.

Inductive action :=
| VaultRename (file_path oldPath : jsstring)
| VaultCreate (file_path : jsstring)
| VaultDelete (file_path : jsstring)
| FileOpen (file : option jsstring)
| CommandCopy
| CommandCopyURL
| ProtocolOpen (code : jsstring)
| ModalInput (query : jsstring)
| ModalChoose (e : Entry).

Inductive effect :=
| StatusShown (s : status)
| ClipboardWritten (text : jsstring)
| Resolved (o : outcome)
| Suggested (inputEl_value : jsstring) (results : list Entry).

Definition shown (hasDrawer : bool) (text : jsstring) : effect :=
  StatusShown {| statusBarText := text;
                 drawerText := if hasDrawer then Some text else None |}.

(** What a caller does with the hash that [getHashForPath] returns. *)
Definition resume (e : env) (w : waiting) (hash : jsstring) : list effect :=
  match w, hash with
  | Nothing, _ => []
  | StatusBar, _ => [shown (hasDrawer e) hash]
  | Clipboard, _ :: _ => [ClipboardWritten hash]
  | ClipboardURL, _ :: _ =>
      [ClipboardWritten (lit "obsidian://note-codes/open?code=" ++ hash)]
  | _, [] => []
  end.

Definition start_addPath (st : plugin) (path : jsstring) (w : waiting) : plugin :=
  {| index := index st; pending := pending st ++ [(path, w)] |}.

(** [getHashForPath] called for [w]: a code that is there is handed over at
    once, otherwise [addPath] is started. *)
Definition start_getHashForPath (e : env) (st : plugin) (path : jsstring)
  (w : waiting) : plugin * list effect :=
  match JsMap.get (pathsToHashes (index st)) path with
  | Some (u :: h) => (st, resume e w (u :: h))
  | _ => (start_addPath st path w, [])
  end.

Definition start_setStatusBar (e : env) (st : plugin) (file : option jsstring)
  : plugin * list effect :=
  match file with
  | Some path => start_getHashForPath e st path StatusBar
  | None => (st, [shown (hasDrawer e) (lit "__-__")])
  end.

Definition handle (e : env) (st : plugin) (a : action) : plugin * list effect :=
  match a with
  | VaultRename file_path oldPath =>
      let st := {| index := removePath (index st) oldPath; pending := pending st |} in
      let st := start_addPath st file_path Nothing in
      start_setStatusBar e st (activeFile e)
  | VaultCreate file_path => (start_addPath st file_path Nothing, [])
  | VaultDelete file_path =>
      ({| index := removePath (index st) file_path; pending := pending st |}, [])
  | FileOpen file => start_setStatusBar e st file
  | CommandCopy =>
      match activeFile e with
      | Some path => start_getHashForPath e st path Clipboard
      | None => (st, [])
      end
  | CommandCopyURL =>
      match activeFile e with
      | Some path => start_getHashForPath e st path ClipboardURL
      | None => (st, [])
      end
  | ProtocolOpen code =>
      (st, [Resolved (snd (openNoteForHash (vault e) (index st) code))])
  | ModalInput query =>
      (st, [Suggested (fst (getSuggestions (index st) query))
              (snd (getSuggestions (index st) query))])
  | ModalChoose entry =>
      (st, [Resolved (snd (onChooseSuggestion (vault e) (index st) entry))])
  end.

Fixpoint take_out (A : Type) (i : nat) (l : list A) : list A :=
  match l, i with
  | [], _ => []
  | _ :: l', O => l'
  | x :: l', S i' => x :: take_out i' l'
  end.

(** The digest of the [i]-th waiting call is there: [addPath] writes and
    its caller goes on. *)
Definition resolve (e : env) (st : plugin) (i : nat) : plugin * list effect :=
  match nth_error (pending st) i with
  | Some (path, w) =>
      ({| index := fst (addPath (index st) path);
          pending := take_out i (pending st) |},
       resume e w (snd (addPath (index st) path)))
  | None => (st, [])
  end.

Inductive input :=
| Happens (a : action)
| Resolves (i : nat).

Definition react (e : env) (st : plugin) (x : input) : plugin * list effect :=
  match x with
  | Happens a => handle e st a
  | Resolves i => resolve e st i
  end.

(** [onload]: [addPath] is started for every file of the vault, then the
    status bar is set. *)
Definition onload (e : env) (files : list jsstring) : plugin * list effect :=
  start_setStatusBar e
    {| index := init; pending := map (fun file_path => (file_path, Nothing)) files |}
    (activeFile e).

Definition play (st : plugin) (inputs : list (env * input)) : plugin :=
  fold_left (fun st x => fst (react (fst x) st (snd x))) inputs st.

(** The first three digest bytes of a path. *)
Definition digest_byte (p : jsstring) (i : nat) : N :=
  Spec.byte_value (SHA256.digest (Utf8.encode p)) i.

(** A path is tracked under its hash, or a call of [addPath] for it has
    not written yet. *)
Definition in_progress (st : plugin) (f : jsstring) : Prop :=
  JsMap.get (pathsToHashes (index st)) f = Some (hashString f)
  \/ In f (map fst (pending st)).

(** * The platform model against known values *)

(** The digests of the empty message and of ["abc"] (FIPS 180-4, B.1). *)
Example sha256_empty :
  SHA256.hex (SHA256.digest []) =
  0xe3b0c44298fc1c149afbf4c8996fb92427ae41e4649b934ca495991b7852b855%N.
Proof. vm_compute. reflexivity. Qed.

Example sha256_abc :
  SHA256.hex (SHA256.digest (Utf8.encode (lit "abc"))) =
  0xba7816bf8f01cfea414140de5dae2223b00361a396177a9cb410ff61f20015ad%N.
Proof. vm_compute. reflexivity. Qed.

(** A path longer than one block, lengths around the padding boundary, and
    strings outside ASCII (a surrogate pair, a surrogate on its own). *)
Example sha256_two_blocks :
  SHA256.hex (SHA256.digest (Utf8.encode
    (lit "projects/2024/meeting-notes/quarterly-planning-and-review-session.md"))) =
  0x93f5e560664d6cdf114b16da06071f4edcc5f6eacb8a8e1b6bbd923092a1a764%N.
Proof. vm_compute. reflexivity. Qed.

Example sha256_boundaries :
  map (fun n => SHA256.hex (SHA256.digest (Utf8.encode (repeat 97%N n))))
      [55; 56; 64] =
  [0x9f4390f8d30c2dd92ec9f095b65e2b9ae9b0a925a5258e241c9f1e910f734318%N;
   0xb35439a4ac6f0948b6d6f9e3c6af0f5f590ce20f1bde7090ef7970686ec6738a%N;
   0xffe054fe7ae0cb6dc65c3af9b61d5209f439851db43d0ba5997337df154668eb%N].
Proof. vm_compute. reflexivity. Qed.

Example sha256_utf8 :
  map (fun s => SHA256.hex (SHA256.digest (Utf8.encode s)))
      [[97; 55357; 56832; 233; 46; 109; 100]%N; [55357%N]] =
  [0x7117b2e3097634aa3613127e868429dd2f48ceb6c2a34ffc3d3735f1e5f9d004%N;
   0x83d544ccc223c057d2bf80d3f2a32982c32c3c0db8e2674820da5064783fb097%N].
Proof. vm_compute. reflexivity. Qed.

(** The codes of a few paths, and of a path outside ASCII. *)
Example hashString_values :
  map hashString [lit ""; lit "a.md"; lit "b.md"; lit "README.md"; lit "notes/todo.md";
                  [26085; 26412; 35486; 46; 109; 100]%N] =
  [lit "7C-64"; lit "XK-6C"; lit "3Q-A8"; lit "6D-B3"; lit "YW-JE"; lit "H5-AR"].
Proof. vm_compute. reflexivity. Qed.

Example toString_values :
  map (toString 32) [0; 31; 32; 1048575; -33]%Z =
  [lit "0"; lit "v"; lit "10"; lit "vvvv"; lit "-11"].
Proof. reflexivity. Qed.

(** Upper-casing can lengthen a string: the sharp s becomes two symbols. *)
Example formatHash_sharp_s : formatHash (223%N :: lit "x") = lit "SS-X".
Proof. reflexivity. Qed.

(** * Lemmas on the embedding *)

(** ** Strings *)

Lemma jsstring_eqb_eq (a b : jsstring) : jsstring_eqb a b = true <-> a = b.
Proof.
  unfold jsstring_eqb. destruct (list_eq_dec N.eq_dec a b); split; congruence.
Qed.

Lemma jsstring_eqb_refl (a : jsstring) : jsstring_eqb a a = true.
Proof. now apply jsstring_eqb_eq. Qed.

Lemma jsstring_eqb_neq (a b : jsstring) : a <> b -> jsstring_eqb a b = false.
Proof.
  intros H. destruct (jsstring_eqb a b) eqn:E; [|reflexivity].
  apply jsstring_eqb_eq in E. contradiction.
Qed.

Lemma startsWith_app (s prefix : jsstring) :
  startsWith s prefix = true <-> exists rest, s = prefix ++ rest.
Proof.
  revert s. induction prefix as [|p prefix IH]; intros s.
  - split; [exists s; reflexivity | destruct s; reflexivity].
  - destruct s as [|c s]; simpl.
    + split; [discriminate | intros [rest H]; discriminate].
    + rewrite andb_true_iff, N.eqb_eq, IH. split.
      * intros [-> [rest ->]]. now exists rest.
      * intros [rest H]. injection H as -> ->. split; [reflexivity | now exists rest].
Qed.

Lemma includes_In (s : jsstring) (c : code_unit) : includes s c = true <-> In c s.
Proof.
  unfold includes. rewrite existsb_exists. split.
  - intros [x [Hx E]]. apply N.eqb_eq in E. now subst.
  - intros H. exists c. split; [assumption | apply N.eqb_refl].
Qed.

(** ** Maps *)

Section MapLemmas.

Variable V : Type.
Implicit Types (m : JsMap.t V) (k : jsstring) (v : V).

Lemma get_set m k v k' :
  JsMap.get (JsMap.set m k v) k' = if jsstring_eqb k' k then Some v else JsMap.get m k'.
Proof.
  induction m as [|[k0 v0] m IH]; simpl.
  - reflexivity.
  - destruct (jsstring_eqb k k0) eqn:E; simpl.
    + apply jsstring_eqb_eq in E. subst k0.
      destruct (jsstring_eqb k' k); reflexivity.
    + rewrite IH. destruct (jsstring_eqb k' k0) eqn:E0; [|reflexivity].
      apply jsstring_eqb_eq in E0. subst k0.
      destruct (jsstring_eqb k' k) eqn:E1; [|reflexivity].
      apply jsstring_eqb_eq in E1. subst k'.
      rewrite jsstring_eqb_refl in E. discriminate.
Qed.

Lemma get_delete m k k' :
  JsMap.get (JsMap.delete m k) k' = if jsstring_eqb k' k then None else JsMap.get m k'.
Proof.
  unfold JsMap.delete. induction m as [|[k0 v0] m IH]; simpl.
  - destruct (jsstring_eqb k' k); reflexivity.
  - destruct (jsstring_eqb k k0) eqn:E; simpl.
    + apply jsstring_eqb_eq in E. subst k0. rewrite IH.
      destruct (jsstring_eqb k' k); reflexivity.
    + rewrite IH. destruct (jsstring_eqb k' k0) eqn:E0; [|reflexivity].
      apply jsstring_eqb_eq in E0. subst k0.
      rewrite jsstring_eqb_neq; [reflexivity|].
      intros ->. rewrite jsstring_eqb_refl in E. discriminate.
Qed.

Lemma set_unchanged m k v : JsMap.set m k v = m <-> JsMap.get m k = Some v.
Proof.
  induction m as [|[k0 v0] m IH]; simpl.
  - split; discriminate.
  - destruct (jsstring_eqb k k0) eqn:E.
    + split; intros H; injection H as ->; reflexivity.
    + rewrite <- IH. split; intros H; [injection H as H|]; congruence.
Qed.

Lemma in_set m k v e : In e (JsMap.set m k v) -> e = (k, v) \/ In e m.
Proof.
  induction m as [|[k0 v0] m IH]; simpl.
  - intros [<-|[]]. now left.
  - destruct (jsstring_eqb k k0) eqn:E; simpl.
    + apply jsstring_eqb_eq in E. subst k0.
      intros [<-|H]; [now left | now right; right].
    + intros [<-|H]; [now right; left|].
      destruct (IH H) as [->|H']; [now left | now right; right].
Qed.

Lemma in_delete m k e : In e (JsMap.delete m k) -> In e m /\ fst e <> k.
Proof.
  unfold JsMap.delete. rewrite filter_In, negb_true_iff. intros [H E].
  split; [assumption|]. intros <-. rewrite jsstring_eqb_refl in E. discriminate.
Qed.

Lemma get_in m k v : JsMap.get m k = Some v -> In (k, v) m.
Proof.
  induction m as [|[k0 v0] m IH]; simpl; [discriminate|].
  destruct (jsstring_eqb k k0) eqn:E.
  - apply jsstring_eqb_eq in E. subst k0. intros [= ->]. now left.
  - intros H. right. now apply IH.
Qed.

Lemma set_new m k v :
  JsMap.get m k = None -> JsMap.entries (JsMap.set m k v) = JsMap.entries m ++ [(k, v)].
Proof.
  unfold JsMap.entries. induction m as [|[k0 v0] m IH]; simpl; [reflexivity|].
  destruct (jsstring_eqb k k0); [discriminate|]. intros H. now rewrite IH.
Qed.

End MapLemmas.

(** ** The number [hashString] takes from the digest *)

Lemma toInt32_small (z : Z) : (- 2 ^ 31 <= z < 2 ^ 31)%Z -> toInt32 z = z.
Proof.
  intros H. unfold toInt32. rewrite Z.mod_small; lia.
Qed.

Lemma lor_disjoint (a b k : Z) :
  (0 <= k)%Z -> (0 <= b < 2 ^ k)%Z -> Z.lor (a * 2 ^ k) b = (a * 2 ^ k + b)%Z.
Proof.
  intros Hk Hb.
  assert (L : Z.land (a * 2 ^ k) b = 0%Z).
  { apply Z.bits_inj'. intros n Hn. rewrite Z.land_spec, Z.bits_0.
    destruct (Z.ltb_spec n k) as [Hlt|Hge].
    - rewrite Z.mul_pow2_bits_low by lia. reflexivity.
    - assert (Hp : (2 ^ k <= 2 ^ n)%Z) by (apply Z.pow_le_mono_r; lia).
      assert (Hb' : Z.testbit b n = false).
      { apply Z.testbit_false; [assumption|]. rewrite Z.div_small by lia. reflexivity. }
      rewrite Hb'. apply andb_false_r. }
  pose proof (Z.add_lor_land (a * 2 ^ k) b) as H. rewrite L in H. lia.
Qed.

Lemma byte_at_value (bytes : list byte) (i : nat) :
  byte_at bytes i = Z.of_N (Spec.byte_value bytes i).
Proof.
  unfold byte_at, Spec.byte_value. revert i.
  induction bytes as [|b bytes IH]; intros [|i]; simpl; try reflexivity.
  apply IH.
Qed.

Lemma byte_value_range (bytes : list byte) (i : nat) :
  (Spec.byte_value bytes i < 256)%N.
Proof.
  unfold Spec.byte_value. pose proof (Byte.to_N_bounded (nth i bytes x00)). lia.
Qed.

Lemma packed_bytes (b0 b1 b2 : Z) :
  (0 <= b0 < 256)%Z -> (0 <= b1 < 256)%Z -> (0 <= b2 < 256)%Z ->
  bor (bor (shl b0 16) (shl b1 8)) (shl b2 0)
  = (b0 * 65536 + b1 * 256 + b2)%Z.
Proof.
  intros H0 H1 H2. unfold shl, bor.
  change (16 mod 32)%Z with 16%Z. change (8 mod 32)%Z with 8%Z.
  change (0 mod 32)%Z with 0%Z.
  rewrite !(toInt32_small (z := b0)), !(toInt32_small (z := b1)),
    !(toInt32_small (z := b2)) by lia.
  rewrite !Z.shiftl_mul_pow2 by lia.
  change (2 ^ 16)%Z with 65536%Z. change (2 ^ 8)%Z with 256%Z.
  change (2 ^ 0)%Z with 1%Z. rewrite Z.mul_1_r.
  rewrite !(toInt32_small (z := b0 * 65536)%Z), !(toInt32_small (z := b1 * 256)%Z),
    !(toInt32_small (z := b2)) by lia.
  assert (E1 : Z.lor (b0 * 65536) (b1 * 256) = (b0 * 65536 + b1 * 256)%Z).
  { change 65536%Z with (2 ^ 16)%Z. apply lor_disjoint; lia. }
  rewrite E1. rewrite !(toInt32_small (z := b0 * 65536 + b1 * 256)%Z) by lia.
  assert (E2 : Z.lor (b0 * 65536 + b1 * 256) b2 = (b0 * 65536 + b1 * 256 + b2)%Z).
  { replace (b0 * 65536 + b1 * 256)%Z with ((b0 * 256 + b1) * 2 ^ 8)%Z by lia.
    apply lor_disjoint; lia. }
  rewrite E2. apply toInt32_small. lia.
Qed.

Lemma num_reduced (bytes : list byte) :
  Z.rem (bor (bor (shl (byte_at bytes 0) 16) (shl (byte_at bytes 1) 8))
             (shl (byte_at bytes 2) 0))
        (Z.of_nat ALPHABET_LENGTH ^ 4)
  = Z.of_N (Spec.reduced bytes).
Proof.
  pose proof (byte_value_range bytes 0) as R0.
  pose proof (byte_value_range bytes 1) as R1.
  pose proof (byte_value_range bytes 2) as R2.
  rewrite !byte_at_value, packed_bytes by lia.
  change (Z.of_nat ALPHABET_LENGTH ^ 4)%Z with 1048576%Z.
  rewrite Z.rem_mod_nonneg by lia.
  unfold Spec.reduced, Spec.packed.
  change (2 ^ 16)%N with 65536%N. change (2 ^ 8)%N with 256%N.
  change (32 ^ 4)%N with 1048576%N.
  rewrite N2Z.inj_mod. f_equal. lia.
Qed.

Lemma reduced_range (bytes : list byte) : (Spec.reduced bytes < 32 ^ 4)%N.
Proof. unfold Spec.reduced. apply N.mod_lt. discriminate. Qed.

(** ** [toString(32)] and [padStart(4, "0")] *)

Lemma length_fixed (k : nat) (n : N) : length (fixed k n) = k.
Proof.
  revert n. induction k as [|k IH]; intros n; simpl; [reflexivity|].
  rewrite length_app, IH. simpl. lia.
Qed.

Lemma fixed_zero (k : nat) : fixed k 0 = repeat (digit_char 0) k.
Proof.
  induction k as [|k IH]; [reflexivity|].
  change (fixed (S k) 0) with (fixed k 0 ++ [digit_char 0]).
  rewrite IH. symmetry. apply repeat_cons.
Qed.

Lemma digits_step (fuel : nat) (radix n : N) (acc : jsstring) :
  digits (S fuel) radix n acc =
  if (n / radix =? 0)%N then digit_char (n mod radix) :: acc
  else digits fuel radix (n / radix) (digit_char (n mod radix) :: acc).
Proof. reflexivity. Qed.

(** With enough fuel, [digits] gives the [k] digits of [n] without the
    leading zeros. *)
Lemma digits_fixed (fuel : nat) :
  forall (n : N) (acc : jsstring) (k : nat),
    (n < 2 ^ N.of_nat fuel)%N -> (n < 32 ^ N.of_nat k)%N -> (1 <= k)%nat ->
    exists z, (z < k)%nat
      /\ digits (S fuel) 32 n acc = skipn z (fixed k n) ++ acc
      /\ firstn z (fixed k n) = repeat (digit_char 0) z.
Proof.
  induction fuel as [|fuel IH]; intros n acc k H2 H32 Hk;
    (destruct k as [|k]; [lia|]);
    change (fixed (S k) n) with (fixed k (n / 32) ++ [digit_char (n mod 32)]);
    rewrite digits_step; destruct (n / 32 =? 0)%N eqn:E.
  1, 3: apply N.eqb_eq in E; exists k; rewrite E, fixed_zero;
    rewrite skipn_app, firstn_app, repeat_length, Nat.sub_diag;
    rewrite skipn_all2 by (rewrite repeat_length; lia);
    rewrite firstn_all2 by (rewrite repeat_length; lia);
    cbn [skipn firstn app]; rewrite app_nil_r; repeat split; lia.
  - apply N.eqb_neq in E. exfalso. apply E. apply N.div_small.
    change (2 ^ N.of_nat 0)%N with 1%N in H2. lia.
  - apply N.eqb_neq in E.
    assert (Hge : (32 <= n)%N).
    { destruct (N.lt_ge_cases n 32) as [Hlt|Hge]; [|assumption].
      exfalso. apply E. now apply N.div_small. }
    destruct k as [|k].
    { change (32 ^ N.of_nat 1)%N with 32%N in H32. lia. }
    rewrite Nat2N.inj_succ, N.pow_succ_r' in H2, H32.
    destruct (@IH (n / 32)%N (digit_char (n mod 32) :: acc) (S k))
      as [z [Hz [Hd Hf]]].
    + apply N.Div0.div_lt_upper_bound. lia.
    + now apply N.Div0.div_lt_upper_bound.
    + lia.
    + exists z. rewrite Hd. pose proof (length_fixed (S k) (n / 32)) as L.
      rewrite skipn_app, firstn_app, L.
      replace (z - S k)%nat with 0%nat by lia.
      cbn [skipn firstn]. rewrite app_nil_r, <- app_assoc.
      split; [lia|]. split; [reflexivity | assumption].
Qed.

Lemma padding_single (c : code_unit) (n : nat) :
  padding n [c] [] = repeat c n /\ padding n [c] [c] = repeat c n.
Proof.
  induction n as [|n [IH0 IH1]]; [split; reflexivity|].
  simpl. rewrite IH0. split; reflexivity.
Qed.

Lemma padStart_toString (n : N) :
  (n < 32 ^ 4)%N -> padStart 4 (lit "0") (toString 32 (Z.of_N n)) = fixed 4 n.
Proof.
  intros Hn. unfold toString.
  assert (Hneg : (Z.of_N n <? 0)%Z = false) by (apply Z.ltb_ge; lia).
  rewrite Hneg, Z.abs_eq, N2Z.id by lia.
  destruct (@digits_fixed (N.to_nat (N.size n)) n [] 4)
    as [z [Hz [Hd Hf]]].
  - rewrite N2Nat.id. apply N.size_gt.
  - exact Hn.
  - lia.
  - rewrite Hd, app_nil_r. unfold padStart.
    rewrite length_skipn, length_fixed.
    replace (4 - (4 - z))%nat with z by lia.
    change (lit "0") with [digit_char 0].
    rewrite (proj2 (padding_single (digit_char 0) z)), <- Hf.
    apply firstn_skipn.
Qed.

(** ** The substitution table *)

Lemma below (bound : nat) (P : N -> Prop) :
  Forall P (map N.of_nat (seq 0 bound)) -> forall d, (d < N.of_nat bound)%N -> P d.
Proof.
  intros H d Hd. rewrite Forall_forall in H. apply H.
  rewrite <- (N2Nat.id d). apply in_map. apply in_seq. lia.
Qed.

Lemma mapping_digit (d : N) :
  (d < 32)%N -> obj_get jsBase32Mapping (digit_char d) = Some (Some (symbol d)).
Proof.
  revert d. apply (below 32). vm_compute. repeat constructor.
Qed.

Lemma symbol_in_alphabet (d : N) : (d < 32)%N -> In (symbol d) base32Alphabet.
Proof.
  intros Hd. unfold symbol. apply nth_In.
  change (length base32Alphabet) with 32%nat. lia.
Qed.

Lemma hashString_code (p : jsstring) :
  hashString p = code_of (Spec.reduced (SHA256.digest (Utf8.encode p))).
Proof.
  unfold hashString. generalize (SHA256.digest (Utf8.encode p)). intros bytes.
  rewrite num_reduced. pose proof (reduced_range bytes) as Hn.
  set (n := Spec.reduced bytes) in *.
  change (N.of_nat ALPHABET_LENGTH) with 32%N.
  rewrite padStart_toString by assumption.
  change (fixed 4 n) with
    [digit_char (n / 32 / 32 / 32 mod 32); digit_char (n / 32 / 32 mod 32);
     digit_char (n / 32 mod 32); digit_char (n mod 32)]%N.
  cbn [map element nth_error].
  rewrite !mapping_digit by (apply N.mod_lt; discriminate).
  unfold code_of. rewrite !N.Div0.div_div. reflexivity.
Qed.

(** ** The formatter *)

Lemma formatHash_separated (s : jsstring) : formatHash s = separated (kept s).
Proof. reflexivity. Qed.

Lemma normalized_app (a b : jsstring) :
  normalized (a ++ b) = normalized a ++ normalized b.
Proof.
  unfold normalized, toUpperCase. now rewrite flat_map_app, map_app, filter_app.
Qed.

Lemma normalized_symbol (c : code_unit) :
  In c base32Alphabet -> normalized [c] = [c].
Proof.
  revert c. apply Forall_forall. vm_compute. repeat constructor.
Qed.

Lemma normalized_canonical (s : jsstring) :
  Forall (fun c => In c base32Alphabet) s -> normalized s = s.
Proof.
  induction 1 as [|c s Hc Hs IH]; [reflexivity|].
  change (c :: s) with ([c] ++ s). rewrite normalized_app, IH.
  now rewrite normalized_symbol.
Qed.

Lemma normalized_separated (s : jsstring) : normalized (separated s) = normalized s.
Proof.
  unfold separated. destruct (2 <? length s)%nat; [|reflexivity].
  unfold slice_to, slice_from. rewrite !normalized_app.
  change (normalized (lit "-")) with (@nil code_unit). cbn [app].
  rewrite <- normalized_app. now rewrite firstn_skipn.
Qed.

Lemma in_firstn (A : Type) (n : nat) (l : list A) (x : A) :
  In x (firstn n l) -> In x l.
Proof.
  intros H. rewrite <- (firstn_skipn n l). apply in_or_app. now left.
Qed.

Lemma kept_canonical (s : jsstring) :
  Forall (fun c => In c base32Alphabet) (kept s).
Proof.
  apply Forall_forall. intros c H. unfold kept, slice_to in H.
  apply in_firstn in H. unfold normalized in H. apply filter_In in H.
  now apply includes_In.
Qed.

Lemma kept_length (s : jsstring) : (length (kept s) <= 4)%nat.
Proof. unfold kept, slice_to. rewrite length_firstn. lia. Qed.

(** A string of at most four canonical symbols, separated, is a fixed point
    of the formatter. *)
Lemma formatHash_fixed (s : jsstring) :
  Forall (fun c => In c base32Alphabet) s -> (length s <= 4)%nat ->
  formatHash (separated s) = separated s.
Proof.
  intros Hs Hl. rewrite formatHash_separated. f_equal.
  change (kept (separated s)) with (slice_to 4 (normalized (separated s))).
  rewrite normalized_separated, normalized_canonical by assumption.
  unfold slice_to. now apply firstn_all2.
Qed.

Lemma code_of_separated (n : N) :
  code_of n =
  separated [symbol ((n / 32 ^ 3) mod 32); symbol ((n / 32 ^ 2) mod 32);
             symbol ((n / 32) mod 32); symbol (n mod 32)]%N.
Proof. reflexivity. Qed.

Lemma canonicalb_spec (c : code_unit) : canonicalb c = true <-> Spec.canonical c.
Proof.
  unfold canonicalb, Spec.canonical.
  rewrite orb_true_iff, !andb_true_iff, !negb_true_iff, !N.leb_le, !N.eqb_neq.
  tauto.
Qed.

Lemma canonicalb_includes (c : code_unit) :
  (c < 91)%N -> canonicalb c = includes base32Alphabet c.
Proof.
  revert c. apply (below 91). vm_compute. repeat constructor.
Qed.

Lemma alphabet_below (c : code_unit) : In c base32Alphabet -> (c < 91)%N.
Proof.
  revert c. apply Forall_forall. vm_compute. repeat constructor.
Qed.

Lemma canonical_alphabet (c : code_unit) : In c base32Alphabet <-> Spec.canonical c.
Proof.
  rewrite <- canonicalb_spec, <- includes_In.
  destruct (N.lt_ge_cases c 91) as [Hlt|Hge].
  - now rewrite canonicalb_includes.
  - split; intros H.
    + apply includes_In in H. apply alphabet_below in H. lia.
    + exfalso. unfold canonicalb in H.
      rewrite orb_true_iff, !andb_true_iff, !N.leb_le in H. lia.
Qed.

Lemma alphabet_from_zero (c : code_unit) :
  In c base32Alphabet -> (48 <= c)%N.
Proof.
  revert c. apply Forall_forall. unfold base32Alphabet, lit. cbn.
  repeat (apply Forall_cons; [lia|]). apply Forall_nil.
Qed.

(** ** The index *)

Lemma hashString_nonempty (p : jsstring) : exists u h, hashString p = u :: h.
Proof. rewrite hashString_code. unfold code_of. eauto. Qed.

Lemma hashString_length (p : jsstring) : length (hashString p) = 5%nat.
Proof. rewrite hashString_code. reflexivity. Qed.

Lemma run_app (ops : list op) (o : op) (this : NoteCodes) :
  run (ops ++ [o]) this = step (run ops this) o.
Proof. unfold run. now rewrite fold_left_app. Qed.

Lemma added_app (ops : list op) (o : op) :
  added (ops ++ [o]) = added ops ++ added [o].
Proof. unfold added. now rewrite flat_map_app. Qed.

Lemma hashed_step (this : NoteCodes) (o : op) :
  codes_hashed this -> codes_hashed (step this o).
Proof.
  intros Hc p c. destruct o as [q|q]; simpl.
  - rewrite get_set. destruct (jsstring_eqb p q) eqn:E.
    + apply jsstring_eqb_eq in E. now intros [= <-]; subst.
    + apply Hc.
  - unfold removePath.
    destruct (JsMap.get (pathsToHashes this) q) as [[|u h]|]; try apply Hc.
    simpl. rewrite get_delete. destruct (jsstring_eqb p q); [discriminate | apply Hc].
Qed.

Lemma owners_step (this : NoteCodes) (o : op) :
  codes_hashed this -> owners_tracked this -> owners_tracked (step this o).
Proof.
  intros Hc Ho c p. destruct o as [q|q]; simpl.
  - intros H. apply in_set in H. rewrite get_set. destruct H as [[= -> ->]|H].
    + now rewrite jsstring_eqb_refl.
    + apply Ho in H. destruct (jsstring_eqb p q) eqn:E; [|assumption].
      apply jsstring_eqb_eq in E. subst q. apply Hc in H. now subst.
  - unfold removePath.
    destruct (JsMap.get (pathsToHashes this) q) as [[|u h]|] eqn:G; try apply Ho.
    simpl. intros H. apply in_delete in H. destruct H as [H Hne]. simpl in Hne.
    apply Ho in H. rewrite get_delete. destruct (jsstring_eqb p q) eqn:E; [|assumption].
    apply jsstring_eqb_eq in E. subst q. congruence.
Qed.

Lemma reachable_invariants (this : NoteCodes) :
  reachable this -> codes_hashed this /\ owners_tracked this.
Proof.
  intros [ops ->]. induction ops as [|o ops [Hc Ho]] using rev_ind.
  - split; intros ? ? H; [discriminate | contradiction].
  - rewrite run_app. split; [now apply hashed_step | now apply owners_step].
Qed.

Lemma tracked_added (ops : list op) (p c : jsstring) :
  JsMap.get (pathsToHashes (run ops init)) p = Some c -> In p (added ops).
Proof.
  revert p c. induction ops as [|o ops IH] using rev_ind; intros p c.
  - discriminate.
  - rewrite run_app, added_app, in_app_iff. destruct o as [q|q]; simpl.
    + rewrite get_set. destruct (jsstring_eqb p q) eqn:E.
      * apply jsstring_eqb_eq in E. subst q. now right; left.
      * intros H. left. eapply IH, H.
    + unfold removePath.
      destruct (JsMap.get (pathsToHashes (run ops init)) q) as [[|u h]|];
        try (intros H; left; eapply IH, H).
      simpl. rewrite get_delete. destruct (jsstring_eqb p q); [discriminate|].
      intros H; left; eapply IH, H.
Qed.

Unset Implicit Arguments.

Lemma run_append (ops ops' : list op) (this : NoteCodes) :
  run (ops ++ ops') this = run ops' (run ops this).
Proof. unfold run. apply fold_left_app. Qed.

Lemma removed_app (ops : list op) (o : op) :
  removed (ops ++ [o]) = removed ops ++ removed [o].
Proof. unfold removed. now rewrite flat_map_app. Qed.

Lemma removePath_untracks (this : NoteCodes) (p : jsstring) :
  reachable this -> JsMap.get (pathsToHashes (removePath this p)) p = None.
Proof.
  intros Hr. destruct (reachable_invariants Hr) as [Hc _]. unfold removePath.
  destruct (JsMap.get (pathsToHashes this) p) as [[|u h]|] eqn:G.
  - apply Hc in G. destruct (hashString_nonempty p) as [u [h E]]. congruence.
  - cbn [pathsToHashes]. now rewrite get_delete, jsstring_eqb_refl.
  - assumption.
Qed.

(** A path whose code no other added path has owns the entry of its
    code. *)
Lemma owner_unshared (ops : list op) (p c : jsstring) :
  unshared (added ops) p ->
  JsMap.get (pathsToHashes (run ops init)) p = Some c ->
  JsMap.get (hashesToPaths (run ops init)) c = Some p.
Proof.
  revert c. induction ops as [|o ops IH] using rev_ind; intros c Hu.
  - discriminate.
  - assert (Hu' : unshared (added ops) p).
    { intros q Hq. apply Hu. rewrite added_app, in_app_iff. now left. }
    specialize (fun c => IH c Hu').
    destruct (reachable_invariants (this := run ops init)) as [Hc _];
      [now exists ops|].
    rewrite run_app. destruct o as [q|q]; cbn [step].
    + cbn [addPath fst hashesToPaths pathsToHashes]. rewrite !get_set.
      destruct (jsstring_eqb p q) eqn:E.
      * apply jsstring_eqb_eq in E. subst q. intros [= <-].
        now rewrite jsstring_eqb_refl.
      * intros H. destruct (jsstring_eqb c (hashString q)) eqn:Ec; [|now apply IH].
        apply jsstring_eqb_eq in Ec. exfalso.
        assert (q = p); [|subst; now rewrite jsstring_eqb_refl in E].
        apply Hu.
        -- rewrite added_app, in_app_iff. right. now left.
        -- apply Hc in H. congruence.
    + unfold removePath.
      destruct (JsMap.get (pathsToHashes (run ops init)) q) as [[|u h]|] eqn:G;
        try apply IH.
      cbn [hashesToPaths pathsToHashes]. rewrite !get_delete.
      destruct (jsstring_eqb p q) eqn:E; [discriminate|].
      intros H. destruct (jsstring_eqb c (u :: h)) eqn:Ec; [|now apply IH].
      apply jsstring_eqb_eq in Ec. exfalso.
      assert (q = p); [|subst; now rewrite jsstring_eqb_refl in E].
      apply Hu'.
      * eapply tracked_added, G.
      * apply Hc in H. apply Hc in G. congruence.
Qed.

(** Operations that add no path of code [c] leave a missing entry of [c]
    missing. *)
Lemma absent_stays (ops : list op) (c : jsstring) :
  forall this,
    JsMap.get (hashesToPaths this) c = None ->
    (forall r, In r (added ops) -> hashString r <> c) ->
    JsMap.get (hashesToPaths (run ops this)) c = None.
Proof.
  induction ops as [|o ops IH]; intros this Hn Ha; [assumption|].
  change (run (o :: ops) this) with (run ops (step this o)). apply IH.
  - destruct o as [q|q]; cbn [step].
    + cbn [addPath fst hashesToPaths]. rewrite get_set, jsstring_eqb_neq; [assumption|].
      intros ->. apply (Ha q); [|reflexivity]. cbn. now left.
    + unfold removePath.
      destruct (JsMap.get (pathsToHashes this) q) as [[|u h]|]; try assumption.
      cbn [hashesToPaths]. rewrite get_delete.
      now destruct (jsstring_eqb c (u :: h)).
  - intros r Hr. apply Ha. destruct o; cbn; [now right | assumption].
Qed.

(** When the code of a tracked path has no entry. *)
Lemma entry_lost_iff (ops : list op) (p c : jsstring) :
  JsMap.get (pathsToHashes (run ops init)) p = Some c ->
  JsMap.get (hashesToPaths (run ops init)) c = None <-> entry_lost ops p c.
Proof.
  intros Ht. split.
  - revert Ht. induction ops as [|o ops IH] using rev_ind; [discriminate|].
    assert (Hr : reachable (run ops init)) by now exists ops.
    destruct (reachable_invariants Hr) as [Hc _].
    rewrite run_app. destruct o as [r|r]; cbn [step].
    + cbn [addPath fst hashesToPaths pathsToHashes]. rewrite !get_set.
      destruct (jsstring_eqb c (hashString r)) eqn:Ec; [discriminate|].
      destruct (jsstring_eqb p r) eqn:E.
      * intros [= <-]. now rewrite jsstring_eqb_refl in Ec.
      * intros Ht Hn. destruct (IH Ht Hn) as [b [q [a [-> [Hq [Hh [Hg Ha]]]]]]].
        exists b, q, (a ++ [AddPath r]). rewrite <- app_assoc.
        split; [reflexivity|]. split; [exact Hq|]. split; [exact Hh|].
        split; [exact Hg|].
        intros x. rewrite added_app, in_app_iff. intros [Hx|[<-|[]]]; [exact (Ha x Hx)|].
        intros E'. rewrite E', jsstring_eqb_refl in Ec. discriminate Ec.
    + destruct (list_eq_dec N.eq_dec r p) as [->|Hne].
      { rewrite removePath_untracks by assumption. discriminate. }
      unfold removePath.
      destruct (JsMap.get (pathsToHashes (run ops init)) r) as [[|u h]|] eqn:G.
      1, 3: intros Ht Hn; destruct (IH Ht Hn) as [b [q [a [-> [Hq [Hh [Hg Ha]]]]]]];
        exists b, q, (a ++ [RemovePath r]); rewrite <- app_assoc;
        (split; [reflexivity|]); (split; [exact Hq|]); (split; [exact Hh|]);
        (split; [exact Hg|]);
        intros x; rewrite added_app, app_nil_r; apply Ha.
      cbn [hashesToPaths pathsToHashes]. rewrite !get_delete.
      rewrite (jsstring_eqb_neq (a := p) (b := r)) by congruence.
      intros Ht. destruct (jsstring_eqb c (u :: h)) eqn:Ec.
      * intros _. apply jsstring_eqb_eq in Ec. exists ops, r, [].
        split; [reflexivity|]. split; [exact Hne|]. split; [|split].
        -- apply Hc in G. rewrite Ec. symmetry. exact G.
        -- rewrite G. discriminate.
        -- intros x [].
      * intros Hn. destruct (IH Ht Hn) as [b [q [a [-> [Hq [Hh [Hg Ha]]]]]]].
        exists b, q, (a ++ [RemovePath r]). rewrite <- app_assoc.
        split; [reflexivity|]. split; [exact Hq|]. split; [exact Hh|].
        split; [exact Hg|].
        intros x. rewrite added_app, app_nil_r. apply Ha.
  - intros [b [q [a [-> [Hq [Hh [Hg Ha]]]]]]].
    change (b ++ RemovePath q :: a) with (b ++ [RemovePath q] ++ a).
    rewrite app_assoc, run_append. apply absent_stays; [|assumption].
    assert (Hr : reachable (run b init)) by now exists b.
    destruct (reachable_invariants Hr) as [Hc _].
    rewrite run_app. cbn [step]. unfold removePath.
    destruct (JsMap.get (pathsToHashes (run b init)) q) as [[|u h]|] eqn:G.
    + apply Hc in G. destruct (hashString_nonempty q) as [u [h E]]. congruence.
    + cbn [hashesToPaths]. apply Hc in G. rewrite get_delete.
      rewrite (proj2 (jsstring_eqb_eq c (u :: h))); [reflexivity | congruence].
    + now elim Hg.
Qed.

Set Implicit Arguments.

Lemma filter_none (A : Type) (f : A -> bool) (l : list A) :
  (forall x, In x l -> f x = false) -> filter f l = [].
Proof.
  induction l as [|x l IH]; intros H; simpl; [reflexivity|].
  rewrite (H x) by now left. apply IH. intros y Hy. apply H. now right.
Qed.

(** Removing the only tracked path of a reachable state empties the
    index. *)
Lemma removePath_only (this : NoteCodes) (old : jsstring) :
  reachable this -> JsMap.keys (pathsToHashes this) = [old] ->
  removePath this old = init.
Proof.
  intros Hr Hk. destruct (reachable_invariants Hr) as [Hc Ho].
  destruct this as [h2p p2h]. unfold codes_hashed, owners_tracked in *. simpl in *.
  destruct p2h as [|[k c] [|e p2h]]; try discriminate.
  injection Hk as ->.
  assert (G : JsMap.get [(old, c)] old = Some c) by (simpl; now rewrite jsstring_eqb_refl).
  pose proof (Hc _ _ G) as Ec. destruct (hashString_nonempty old) as [u [h Eh]].
  unfold removePath. simpl pathsToHashes. rewrite G, Ec, Eh. unfold init, JsMap.empty.
  f_equal.
  - simpl. apply filter_none. intros [c' p'] Hin. simpl.
    apply Ho in Hin. simpl in Hin. destruct (jsstring_eqb p' old); [|discriminate].
    injection Hin as <-. rewrite <- Eh, <- Ec. now rewrite jsstring_eqb_refl.
  - simpl. now rewrite jsstring_eqb_refl.
Qed.

(** * The properties of the specification *)

(** ** Hash function *)

Lemma substitute_digit (d : N) :
  (d < 32)%N -> Spec.substitute (nth (N.to_nat d) jsBase32Alphabet 0%N) = symbol d.
Proof.
  revert d. apply (below 32). vm_compute. repeat constructor.
Qed.

Lemma NoDup_by_nodup (l : list N) : nodup N.eq_dec l = l -> NoDup l.
Proof. intros <-. apply NoDup_nodup. Qed.

(** C2. [hashString] computes what the six steps of the specification say:
    the first three digest bytes packed big-endian, reduced modulo 32^4,
    rendered as four base-32 digits, each digit translated through the
    substitution table, and the separator put after the second symbol. The
    table is one-to-one between two alphabets of 32 symbols. *)
Theorem hashString_refines_spec :
  (forall p, hashString p = Spec.hash p)
  /\ length Spec.table = 32%nat
  /\ NoDup (map fst Spec.table) /\ NoDup (map snd Spec.table).
Proof.
  split; [|split; [reflexivity | split; apply NoDup_by_nodup; vm_compute; reflexivity]].
  intros p. rewrite hashString_code. unfold Spec.hash.
  generalize (Spec.reduced (SHA256.digest (Utf8.encode p))). intros n.
  unfold Spec.rendered, Spec.base32_digits. cbn [map].
  rewrite !substitute_digit by (apply N.mod_lt; discriminate).
  reflexivity.
Qed.

(** C8. A code has five characters, the third of which is the separator,
    and the other four are symbols of the canonical alphabet: the 32
    characters that are digits or upper-case letters other than O, I, L
    and U. *)
Theorem hashString_shape (p : jsstring) :
  length (hashString p) = 5%nat
  /\ nth_error (hashString p) 2 = Some (N_of_ascii "-")
  /\ (forall i c, i <> 2%nat -> nth_error (hashString p) i = Some c ->
                  In c base32Alphabet)
  /\ (forall c, In c base32Alphabet <-> Spec.canonical c)
  /\ length base32Alphabet = 32%nat /\ NoDup base32Alphabet.
Proof.
  rewrite hashString_code.
  generalize (Spec.reduced (SHA256.digest (Utf8.encode p))). intros n.
  split; [reflexivity|]. split; [reflexivity|]. split; [|split; [|split]].
  - intros i c Hi H. unfold code_of in H.
    destruct i as [|[|[|[|[|i]]]]]; try congruence; cbn [nth_error] in H;
      try (injection H as <-; apply symbol_in_alphabet, N.mod_lt; discriminate).
    destruct i; discriminate.
  - apply canonical_alphabet.
  - reflexivity.
  - apply NoDup_by_nodup. vm_compute. reflexivity.
Qed.

(** ** Formatter *)

(** C4. Formatting a formatted string changes nothing. *)
Theorem formatHash_idempotent (s : jsstring) :
  formatHash (formatHash s) = formatHash s.
Proof.
  rewrite (formatHash_separated s).
  apply formatHash_fixed; [apply kept_canonical | apply kept_length].
Qed.

(** C10. Every code the hash function produces is a fixed point of the
    formatter. *)
Theorem formatHash_hashString (p : jsstring) :
  formatHash (hashString p) = hashString p.
Proof.
  rewrite hashString_code, code_of_separated.
  apply formatHash_fixed; [|simpl; lia].
  repeat (apply Forall_cons; [apply symbol_in_alphabet, N.mod_lt; discriminate|]).
  apply Forall_nil.
Qed.

(** C9, as the specification gives it: the example string would format to
    0-11V. It does not. *)
Lemma formatHash_example_counterexample :
  formatHash (lit "o1i u") <> lit "0-11V".
Proof. vm_compute. discriminate. Qed.

(** C9, amended. The example string is upper-cased, its look-alike letters
    are replaced (O by 0, I and L by 1, U by V), the blank is dropped, and
    the separator goes after the second of the four symbols left: 01-1V. *)
Theorem formatHash_normalization_example :
  formatHash (lit "o1i u") = lit "01-1V"
  /\ toUpperCase (lit "o1i u") = lit "O1I U"
  /\ formatHash (lit "o") = lit "0" /\ formatHash (lit "i") = lit "1"
  /\ formatHash (lit "l") = lit "1" /\ formatHash (lit "u") = lit "V"
  /\ formatHash (lit " -_./") = lit ""
  /\ formatHash (lit "abcdefgh") = lit "AB-CD".
Proof. repeat split; reflexivity. Qed.

(** ** Bidirectional index *)

(** Two paths with the same code. *)
Example colliding_paths :
  hashString (lit "note298.md") = lit "ZD-T0"
  /\ hashString (lit "note744.md") = lit "ZD-T0".
Proof. split; vm_compute; reflexivity. Qed.

(** C1, as the specification gives it: the code of a tracked path always
    has an entry in code→path. After two colliding paths are added and the
    first of them is removed, the second is still tracked, it was never
    overwritten, and its code has no entry. *)
Lemma consistency_counterexample :
  let this :=
    run [AddPath (lit "note298.md"); AddPath (lit "note744.md");
         RemovePath (lit "note298.md")] init in
  JsMap.get (pathsToHashes this) (lit "note744.md") = Some (lit "ZD-T0")
  /\ JsMap.get (hashesToPaths this) (lit "ZD-T0") = None
  /\ ~ index_consistent this.
Proof.
  cbv zeta. split; [vm_compute; reflexivity|]. split; [vm_compute; reflexivity|].
  intros H. destruct (H (lit "note744.md") (lit "ZD-T0")) as [q Hq].
  - vm_compute. reflexivity.
  - vm_compute in Hq. discriminate.
Qed.

(** C1, amended. After any sequence of [addPath] and [removePath] from the
    empty index, a tracked path is filed under its hash, and the code has no
    entry in code→path exactly when a different path with that code was
    removed while it was tracked and no path with that code has been added
    since. So the code has an entry whenever no different path with that
    code was removed, and the entry is the path itself whenever no different
    path with that code was added. *)
Theorem tracked_code_entry (ops : list op) (p c : jsstring) :
  JsMap.get (pathsToHashes (run ops init)) p = Some c ->
  c = hashString p
  /\ (JsMap.get (hashesToPaths (run ops init)) c = None <-> entry_lost ops p c)
  /\ (unshared (removed ops) p ->
      exists q, JsMap.get (hashesToPaths (run ops init)) c = Some q
                /\ hashString q = c)
  /\ (unshared (added ops) p ->
      JsMap.get (hashesToPaths (run ops init)) c = Some p).
Proof.
  intros Ht.
  assert (Hr : reachable (run ops init)) by now exists ops.
  destruct (reachable_invariants Hr) as [Hc Ho].
  pose proof (Hc _ _ Ht) as Ec.
  split; [exact Ec|]. split; [exact (entry_lost_iff ops p c Ht)|]. split.
  - intros Hu. destruct (JsMap.get (hashesToPaths (run ops init)) c) as [q|] eqn:G.
    + exists q. split; [reflexivity|]. apply get_in, Ho, Hc in G.
      symmetry. exact G.
    + exfalso. apply (entry_lost_iff ops p c Ht) in G.
      destruct G as [b [q [a [E [Hq [Hh _]]]]]]. apply Hq, Hu.
      * rewrite E. unfold removed. rewrite flat_map_app, in_app_iff.
        right. left. reflexivity.
      * rewrite Hh. exact Ec.
  - intros Hu. exact (owner_unshared ops p c Hu Ht).
Qed.

Lemma tracked_code_entry_witness :
  let ops := [AddPath (lit "a.md"); AddPath (lit "b.md"); RemovePath (lit "a.md")] in
  JsMap.get (pathsToHashes (run ops init)) (lit "b.md") = Some (lit "3Q-A8")
  /\ lit "3Q-A8" = hashString (lit "b.md")
  /\ JsMap.get (hashesToPaths (run ops init)) (lit "3Q-A8") = Some (lit "b.md").
Proof.
  cbv zeta.
  assert (Ht : JsMap.get
            (pathsToHashes
               (run [AddPath (lit "a.md"); AddPath (lit "b.md"); RemovePath (lit "a.md")]
                  init))
            (lit "b.md") = Some (lit "3Q-A8")) by (vm_compute; reflexivity).
  destruct (@tracked_code_entry _ _ _ Ht) as [E [_ [_ H]]].
  split; [exact Ht|]. split; [exact E|]. apply H.
  intros q [<-|[<-|[]]] Hq; [|reflexivity].
  vm_compute in Hq. discriminate Hq.
Defined.

(** C3, as the specification gives it: [addPath] on a tracked path changes
    nothing. With a later colliding path owning the code, it takes the entry
    of code→path back. *)
Lemma addPath_tracked_counterexample :
  let this := run [AddPath (lit "note298.md"); AddPath (lit "note744.md")] init in
  JsMap.get (pathsToHashes this) (lit "note298.md") = Some (lit "ZD-T0")
  /\ JsMap.get (hashesToPaths this) (lit "ZD-T0") = Some (lit "note744.md")
  /\ JsMap.get (hashesToPaths (fst (addPath this (lit "note298.md")))) (lit "ZD-T0")
     = Some (lit "note298.md")
  /\ fst (addPath this (lit "note298.md")) <> this.
Proof.
  cbv zeta. repeat split; try (vm_compute; reflexivity).
  intros H. apply (f_equal (fun st => JsMap.get (hashesToPaths st) (lit "ZD-T0"))) in H.
  vm_compute in H. discriminate.
Qed.

(** C3, amended. For a path tracked under a non-empty code,
    [getHashForPath] returns that code and changes neither map, whoever owns
    the code's entry. [addPath] has no such guard: it returns the existing
    code and changes nothing exactly when the path is tracked under its hash
    and owns the entry of code→path. *)
Theorem tracked_path_noop (this : NoteCodes) (p c : jsstring) :
  JsMap.get (pathsToHashes this) p = Some c ->
  (c <> [] -> getHashForPath this p = (this, c))
  /\ (addPath this p = (this, c)
      <-> c = hashString p /\ JsMap.get (hashesToPaths this) c = Some p).
Proof.
  intros H. split.
  - intros Hne. unfold getHashForPath. rewrite H. destruct c; [now elim Hne | reflexivity].
  - destruct this as [h2p p2h]. unfold addPath. simpl in *. split.
    + intros E. injection E as E1 E2 E3. subst c. split; [reflexivity|].
      now apply set_unchanged.
    + intros [-> E]. apply set_unchanged in E, H. now rewrite E, H.
Qed.

Lemma tracked_path_noop_witness :
  let this := run [AddPath (lit "note298.md"); AddPath (lit "note744.md")] init in
  JsMap.get (pathsToHashes this) (lit "note298.md") = Some (lit "ZD-T0")
  /\ getHashForPath this (lit "note298.md") = (this, lit "ZD-T0").
Proof.
  cbv zeta.
  assert (H : JsMap.get
            (pathsToHashes (run [AddPath (lit "note298.md"); AddPath (lit "note744.md")] init))
            (lit "note298.md") = Some (lit "ZD-T0")) by (vm_compute; reflexivity).
  split; [exact H|].
  apply (proj1 (@tracked_path_noop _ _ _ H)). discriminate.
Defined.

(** C7, as the specification gives it: for every pair of paths the old one
    is gone after the rename. When both are the same path it is still
    there. *)
Lemma rename_same_path_counterexample :
  let old := lit "a.md" in
  let this := fst (addPath init old) in
  JsMap.keys (pathsToHashes this) = [old]
  /\ JsMap.get (pathsToHashes (fst (addPath (removePath this old) old))) old
     = Some (lit "XK-6C").
Proof. cbv zeta. split; vm_compute; reflexivity. Qed.

(** C7, amended. From a state where [old] is the only tracked path,
    [removePath old] followed by [addPath new], for a different path [new],
    leaves [new] as the only tracked path, filed under its hash in both
    maps, and [old] is no longer in path→code. *)
Theorem rename_replaces_path (this : NoteCodes) (old new : jsstring) :
  reachable this ->
  JsMap.keys (pathsToHashes this) = [old] ->
  old <> new ->
  let this' := fst (addPath (removePath this old) new) in
  JsMap.entries (pathsToHashes this') = [(new, hashString new)]
  /\ JsMap.entries (hashesToPaths this') = [(hashString new, new)]
  /\ JsMap.get (pathsToHashes this') old = None.
Proof.
  intros Hr Hk Hne. rewrite (removePath_only Hr Hk). cbv zeta. simpl.
  repeat split. now rewrite jsstring_eqb_neq.
Qed.

Lemma rename_replaces_path_witness :
  let this := run [AddPath (lit "a.md")] init in
  let this' := fst (addPath (removePath this (lit "a.md")) (lit "b.md")) in
  JsMap.entries (pathsToHashes this') = [(lit "b.md", hashString (lit "b.md"))]
  /\ JsMap.entries (hashesToPaths this') = [(hashString (lit "b.md"), lit "b.md")]
  /\ JsMap.get (pathsToHashes this') (lit "a.md") = None.
Proof.
  apply (@rename_replaces_path (run [AddPath (lit "a.md")] init) (lit "a.md") (lit "b.md")).
  - now exists [AddPath (lit "a.md")].
  - vm_compute. reflexivity.
  - discriminate.
Defined.

(** ** Lookup and search *)

Lemma suggestions_loop (query : jsstring) (entries : list (jsstring * jsstring))
  (results : list Entry) :
  fold_left
    (fun results e =>
       if startsWith (fst e) query
       then results ++ [{| hash := fst e; path := snd e |}]
       else results)
    entries results
  = results
    ++ map (fun e => {| hash := fst e; path := snd e |})
         (filter (fun e => startsWith (fst e) query) entries).
Proof.
  revert results. induction entries as [|e entries IH]; intros results; simpl.
  - now rewrite app_nil_r.
  - rewrite IH. destruct (startsWith (fst e) query); [|reflexivity].
    simpl. now rewrite <- app_assoc.
Qed.

(** C5. A search formats the query and returns the entries of code→path
    whose code starts with the formatted query, in the order of the map,
    where a new code is entered last. On the three entries of the example,
    AB finds the first two, AB-CD the first, and ZZ none. *)
Theorem getSuggestions_prefix_search :
  (forall plugin query,
     getSuggestions plugin query
     = (formatHash query,
        map (fun e => {| hash := fst e; path := snd e |})
          (filter (fun e => startsWith (fst e) (formatHash query))
             (JsMap.entries (hashesToPaths plugin)))))
  /\ (forall code prefix,
        startsWith code prefix = true <-> exists rest, code = prefix ++ rest)
  /\ (forall (m : JsMap.t jsstring) code path,
        JsMap.get m code = None ->
        JsMap.entries (JsMap.set m code path) = JsMap.entries m ++ [(code, path)])
  /\ JsMap.entries (hashesToPaths search_example)
     = [(lit "AB-CD", lit "x"); (lit "AB-EF", lit "y"); (lit "GH-IJ", lit "z")]
  /\ snd (getSuggestions search_example (lit "AB"))
     = [{| hash := lit "AB-CD"; path := lit "x" |};
        {| hash := lit "AB-EF"; path := lit "y" |}]
  /\ snd (getSuggestions search_example (lit "AB-CD"))
     = [{| hash := lit "AB-CD"; path := lit "x" |}]
  /\ snd (getSuggestions search_example (lit "ZZ")) = [].
Proof.
  split; [|split; [exact startsWith_app | split; [exact (@set_new jsstring)|]]];
    [|repeat split; reflexivity].
  intros plugin query. unfold getSuggestions. now rewrite suggestions_loop.
Qed.

Lemma symbols_separated (s : jsstring) :
  Forall (fun c => In c base32Alphabet) s -> Spec.symbols (separated s) = s.
Proof.
  intros Hs.
  assert (E : forall l, Forall (fun c => In c base32Alphabet) l -> Spec.symbols l = l).
  { induction 1 as [|c l Hc Hl IH]; [reflexivity|].
    unfold Spec.symbols in *. cbn [filter]. rewrite IH.
    destruct (c =? N_of_ascii "-")%N eqn:Ec; [|reflexivity].
    apply N.eqb_eq in Ec. subst c. apply alphabet_from_zero in Hc.
    cbn in Hc. lia. }
  unfold separated. destruct (2 <? length s)%nat; [|now apply E].
  unfold Spec.symbols, slice_to, slice_from. rewrite !filter_app.
  change (filter _ (lit "-")) with (@nil code_unit). cbn [app].
  rewrite <- filter_app, firstn_skipn. now apply E.
Qed.

Lemma separated_length (s : jsstring) : (length (separated s) <= S (length s))%nat.
Proof.
  unfold separated. destruct (2 <? length s)%nat; [|lia].
  unfold slice_to, slice_from. rewrite <- (firstn_skipn 2 s) at 3.
  rewrite !length_app. simpl. lia.
Qed.

(** A code→path key of a reachable state is a hash. *)
Lemma reachable_key_length (this : NoteCodes) (c p : jsstring) :
  reachable this -> JsMap.get (hashesToPaths this) c = Some p -> length c = 5%nat.
Proof.
  intros Hr H. destruct (reachable_invariants Hr) as [Hc Ho].
  apply get_in, Ho, Hc in H. subst c. apply hashString_length.
Qed.

(** C6. Resolution formats its input and looks the result up in code→path.
    It changes neither map. When the formatted code has no entry, the
    outcome is the not-found notice; a formatted code of fewer than four
    symbols has no entry. An entry with a non-empty path is opened, or
    reported missing by the vault. *)
Theorem openNoteForHash_not_found
  (vault : jsstring -> bool) (this : NoteCodes) (s : jsstring) :
  reachable this ->
  let code := formatHash s in
  let missing := NoSuchNoteCode (padEnd 5 (lit "_") code) in
  fst (openNoteForHash vault this s) = this
  /\ (JsMap.get (hashesToPaths this) code = None ->
      snd (openNoteForHash vault this s) = missing)
  /\ ((length (Spec.symbols code) < 4)%nat ->
      JsMap.get (hashesToPaths this) code = None
      /\ snd (openNoteForHash vault this s) = missing)
  /\ (forall p, JsMap.get (hashesToPaths this) code = Some p -> p <> [] ->
      snd (openNoteForHash vault this s)
      = if vault p then OpenFile p else FileNotFound p).
Proof.
  intros Hr code missing. unfold openNoteForHash. fold code.
  assert (Hnone : JsMap.get (hashesToPaths this) code = None ->
                  snd (match JsMap.get (hashesToPaths this) code with
                       | Some (u :: p) =>
                           if vault (u :: p) then (this, OpenFile (u :: p))
                           else (this, FileNotFound (u :: p))
                       | _ => (this, NoSuchNoteCode (padEnd 5 (lit "_") code))
                       end) = missing).
  { intros ->. reflexivity. }
  split; [|split; [exact Hnone | split]].
  - destruct (JsMap.get (hashesToPaths this) code) as [[|u p]|]; try reflexivity.
    destruct (vault (u :: p)); reflexivity.
  - intros Hlen.
    assert (G : JsMap.get (hashesToPaths this) code = None).
    { destruct (JsMap.get (hashesToPaths this) code) as [p|] eqn:G; [|reflexivity].
      exfalso. apply (@reachable_key_length this code p Hr) in G.
      unfold code in Hlen, G. rewrite formatHash_separated in Hlen, G.
      rewrite symbols_separated in Hlen by apply kept_canonical.
      pose proof (separated_length (kept s)). lia. }
    split; [exact G | exact (Hnone G)].
  - intros p -> Hp. destruct p as [|u p]; [contradiction|].
    destruct (vault (u :: p)); reflexivity.
Qed.

Lemma openNoteForHash_not_found_witness :
  let this := run [AddPath (lit "a.md")] init in
  JsMap.get (hashesToPaths this) (lit "XK-6C") = Some (lit "a.md")
  /\ JsMap.get (hashesToPaths this) (formatHash (lit "xk-6")) = None
  /\ snd (openNoteForHash (fun _ => true) this (lit "xk-6"))
     = NoSuchNoteCode (lit "XK-6_").
Proof.
  cbv zeta. split; [vm_compute; reflexivity|].
  apply (@openNoteForHash_not_found (fun _ => true)
           (run [AddPath (lit "a.md")] init) (lit "xk-6")).
  - now exists [AddPath (lit "a.md")].
  - vm_compute. lia.
Defined.

(** * Lemmas for the rest of the plugin *)

Section MapKeys.

Variable V : Type.
Implicit Types (m : JsMap.t V) (k : jsstring) (v : V).

Lemma get_none_keys m k : JsMap.get m k = None <-> ~ In k (JsMap.keys m).
Proof.
  unfold JsMap.keys. induction m as [|[k0 v0] m IH]; simpl.
  - tauto.
  - destruct (jsstring_eqb k k0) eqn:E.
    + apply jsstring_eqb_eq in E. subst k0. split; [discriminate | tauto].
    + rewrite IH. split; [|tauto]. intros H [->|H']; [|tauto].
      rewrite jsstring_eqb_refl in E. discriminate.
Qed.

Lemma keys_set m k v :
  JsMap.keys (JsMap.set m k v)
  = match JsMap.get m k with
    | Some _ => JsMap.keys m
    | None => JsMap.keys m ++ [k]
    end.
Proof.
  unfold JsMap.keys. induction m as [|[k0 v0] m IH]; simpl; [reflexivity|].
  destruct (jsstring_eqb k k0); simpl; [reflexivity|].
  rewrite IH. destruct (JsMap.get m k); reflexivity.
Qed.

Lemma nodup_set m k v : NoDup (JsMap.keys m) -> NoDup (JsMap.keys (JsMap.set m k v)).
Proof.
  intros H. rewrite keys_set. destruct (JsMap.get m k) eqn:G; [assumption|].
  apply get_none_keys in G. apply NoDup_app; [assumption | repeat constructor; intros [] |].
  intros x Hx [<-|[]]. contradiction.
Qed.

Lemma in_keys_delete m k x :
  In x (JsMap.keys (JsMap.delete m k)) -> In x (JsMap.keys m).
Proof.
  unfold JsMap.keys, JsMap.delete. rewrite !in_map_iff.
  intros [e [E H]]. apply filter_In in H. exists e. tauto.
Qed.

Lemma nodup_delete m k : NoDup (JsMap.keys m) -> NoDup (JsMap.keys (JsMap.delete m k)).
Proof.
  induction m as [|[k0 v0] m IH]; simpl; [constructor|].
  intros H. apply NoDup_cons_iff in H. destruct H as [Hn H].
  destruct (jsstring_eqb k k0); simpl; [now apply IH|].
  constructor; [|now apply IH]. intros Hin. apply Hn.
  now apply (in_keys_delete m k).
Qed.

Lemma in_get m k v : NoDup (JsMap.keys m) -> In (k, v) m -> JsMap.get m k = Some v.
Proof.
  induction m as [|[k0 v0] m IH]; simpl; [contradiction|].
  intros H Hin. apply NoDup_cons_iff in H. destruct H as [Hn H].
  destruct Hin as [[= -> ->]|Hin].
  - now rewrite jsstring_eqb_refl.
  - rewrite jsstring_eqb_neq; [now apply IH|].
    intros ->. apply Hn. unfold JsMap.keys. now apply (in_map fst) in Hin.
Qed.

(** A filter that picks the entries of one key finds the entry [get]
    finds. *)
Lemma filter_key m k (f : jsstring * V -> bool) :
  NoDup (JsMap.keys m) ->
  (forall e, In e m -> (f e = true <-> fst e = k)) ->
  filter f m = match JsMap.get m k with Some v => [(k, v)] | None => [] end.
Proof.
  induction m as [|[k0 v0] m IH]; simpl; [reflexivity|].
  intros H Hf. apply NoDup_cons_iff in H. destruct H as [Hn H].
  assert (Hf' : forall e, In e m -> (f e = true <-> fst e = k)).
  { intros e He. apply Hf. now right. }
  specialize (IH H Hf'). pose proof (Hf (k0, v0) (or_introl eq_refl)) as H0.
  simpl in H0. destruct (jsstring_eqb k k0) eqn:E.
  - apply jsstring_eqb_eq in E. subst k0.
    rewrite (proj2 H0 eq_refl), IH.
    apply get_none_keys in Hn. now rewrite Hn.
  - destruct (f (k0, v0)); [|exact IH].
    rewrite (proj1 H0 eq_refl), jsstring_eqb_refl in E. discriminate.
Qed.

End MapKeys.

Unset Implicit Arguments.

(** ** Reachable states *)

Lemma reachable_init : reachable init.
Proof. now exists []. Qed.

Lemma reachable_step (this : NoteCodes) (o : op) :
  reachable this -> reachable (step this o).
Proof. intros [ops ->]. exists (ops ++ [o]). now rewrite run_app. Qed.

Lemma reachable_addPath (this : NoteCodes) (p : jsstring) :
  reachable this -> reachable (fst (addPath this p)).
Proof. apply (reachable_step this (AddPath p)). Qed.

Lemma reachable_removePath (this : NoteCodes) (p : jsstring) :
  reachable this -> reachable (removePath this p).
Proof. apply (reachable_step this (RemovePath p)). Qed.

Lemma reachable_getHashForPath (this : NoteCodes) (p : jsstring) :
  reachable this -> reachable (fst (getHashForPath this p)).
Proof.
  intros H. unfold getHashForPath.
  destruct (JsMap.get (pathsToHashes this) p) as [[|u h]|];
    try assumption; now apply reachable_addPath.
Qed.

Lemma reachable_nodup (this : NoteCodes) :
  reachable this ->
  NoDup (JsMap.keys (hashesToPaths this)) /\ NoDup (JsMap.keys (pathsToHashes this)).
Proof.
  intros [ops ->]. induction ops as [|o ops [Hh Hp]] using rev_ind.
  - split; constructor.
  - rewrite run_app. destruct o as [q|q]; simpl.
    + split; now apply nodup_set.
    + unfold removePath.
      destruct (JsMap.get (pathsToHashes (run ops init)) q) as [[|u h]|];
        try (split; assumption).
      simpl. split; now apply nodup_delete.
Qed.

(** In a reachable state the code of a tracked path is read as its hash. *)
Lemma getHashForPath_value (this : NoteCodes) (p : jsstring) :
  reachable this -> snd (getHashForPath this p) = hashString p.
Proof.
  intros Hr. destruct (reachable_invariants Hr) as [Hc _].
  unfold getHashForPath.
  destruct (JsMap.get (pathsToHashes this) p) as [[|u h]|] eqn:G; try reflexivity.
  simpl. now apply Hc.
Qed.

Lemma getHashForPath_tracked (this : NoteCodes) (p : jsstring) :
  reachable this ->
  JsMap.get (pathsToHashes (fst (getHashForPath this p))) p = Some (hashString p).
Proof.
  intros Hr. destruct (reachable_invariants Hr) as [Hc _].
  unfold getHashForPath.
  destruct (JsMap.get (pathsToHashes this) p) as [[|u h]|] eqn:G; simpl;
    try (rewrite get_set; now rewrite jsstring_eqb_refl).
  rewrite G. f_equal. now apply Hc.
Qed.

Lemma getHashForPath_others (this : NoteCodes) (p q : jsstring) :
  q <> p ->
  JsMap.get (pathsToHashes (fst (getHashForPath this p))) q
  = JsMap.get (pathsToHashes this) q.
Proof.
  intros Hne. unfold getHashForPath.
  destruct (JsMap.get (pathsToHashes this) p) as [[|u h]|]; simpl;
    try reflexivity; rewrite get_set; now rewrite jsstring_eqb_neq.
Qed.

(** ** Formatting *)

Lemma formatHash_code (p : jsstring) : formatHash (hashString p) = hashString p.
Proof.
  rewrite hashString_code, code_of_separated.
  apply formatHash_fixed; [|simpl; lia].
  repeat (apply Forall_cons; [apply symbol_in_alphabet, N.mod_lt; discriminate|]).
  apply Forall_nil.
Qed.

Lemma formatHash_twice (s : jsstring) : formatHash (formatHash s) = formatHash s.
Proof.
  rewrite (formatHash_separated s).
  apply formatHash_fixed; [apply kept_canonical | apply kept_length].
Qed.

Lemma startsWith_refl (s : jsstring) : startsWith s s = true.
Proof. apply startsWith_app. exists []. now rewrite app_nil_r. Qed.

Lemma startsWith_same_length (s prefix : jsstring) :
  length s = length prefix -> (startsWith s prefix = true <-> s = prefix).
Proof.
  intros L. rewrite startsWith_app. split.
  - intros [r ->]. rewrite length_app in L. destruct r; [now rewrite app_nil_r|].
    simpl in L. lia.
  - intros ->. exists []. now rewrite app_nil_r.
Qed.


(** ** Entries and keys *)

Lemma nodup_values (m : JsMap.t jsstring) :
  NoDup (JsMap.keys m) ->
  (forall c c' p, In (c, p) m -> In (c', p) m -> c = c') ->
  NoDup (map snd m).
Proof.
  induction m as [|[c p] m IH]; intros Hk Hf; [constructor|].
  cbn [JsMap.keys map fst snd] in *. apply NoDup_cons_iff in Hk. destruct Hk as [Hn Hk].
  constructor.
  - intros Hin. apply in_map_iff in Hin. destruct Hin as [[c' p'] [E Hin]].
    cbn [snd] in E. subst p'. apply Hn.
    assert (c = c') as -> by (apply (Hf c c' p); [left; reflexivity | right; exact Hin]).
    apply (in_map fst) in Hin. exact Hin.
  - apply IH; [exact Hk|]. intros c1 c2 q H1 H2.
    apply (Hf c1 c2 q); right; assumption.
Qed.

Lemma in_take_out (A : Type) (i : nat) (l : list A) (x y : A) :
  In x l -> nth_error l i = Some y -> x <> y -> In x (take_out i l).
Proof.
  revert i. induction l as [|z l IH]; intros i Hin Hn Hne; [contradiction|].
  destruct i as [|i]; cbn [take_out nth_error] in *.
  - injection Hn as ->. destruct Hin as [->|Hin]; [now elim Hne | exact Hin].
  - destruct Hin as [->|Hin]; [left; reflexivity | right; now apply (IH i)].
Qed.

(** ** The event loop *)

Lemma reachable_start_getHashForPath (e : env) (st : plugin) (p : jsstring) (w : waiting) :
  index (fst (start_getHashForPath e st p w)) = index st.
Proof.
  unfold start_getHashForPath.
  destruct (JsMap.get (pathsToHashes (index st)) p) as [[|u h]|]; reflexivity.
Qed.

Lemma index_start_setStatusBar (e : env) (st : plugin) (file : option jsstring) :
  index (fst (start_setStatusBar e st file)) = index st.
Proof.
  destruct file as [p|]; [apply reachable_start_getHashForPath | reflexivity].
Qed.

Lemma reachable_react (e : env) (st : plugin) (x : input) :
  reachable (index st) -> reachable (index (fst (react e st x))).
Proof.
  intros Hr. destruct x as [a|i]; cbn [react].
  - destruct a; cbn [handle fst index];
      try rewrite index_start_setStatusBar; cbn [start_addPath index];
      try assumption; try (apply reachable_removePath; assumption).
    + destruct (activeFile e);
        [rewrite reachable_start_getHashForPath|]; assumption.
    + destruct (activeFile e);
        [rewrite reachable_start_getHashForPath|]; assumption.
  - unfold resolve. destruct (nth_error (pending st) i) as [[p w]|]; [|assumption].
    cbn [fst index]. apply reachable_addPath. assumption.
Qed.

Lemma reachable_play (st : plugin) (inputs : list (env * input)) :
  reachable (index st) -> reachable (index (play st inputs)).
Proof.
  revert st. induction inputs as [|x inputs IH]; intros st Hr; [assumption|].
  apply IH. apply reachable_react. assumption.
Qed.

Lemma in_progress_resolve (e : env) (st : plugin) (i : nat) (f : jsstring) :
  in_progress st f -> in_progress (fst (resolve e st i)) f.
Proof.
  intros H. unfold resolve.
  destruct (nth_error (pending st) i) as [[p w]|] eqn:G; [|exact H].
  unfold in_progress. cbn [fst index pending addPath pathsToHashes].
  rewrite get_set. destruct (jsstring_eqb f p) eqn:E.
  - apply jsstring_eqb_eq in E. subst p. left. reflexivity.
  - destruct H as [H|H]; [left; exact H|]. right.
    apply in_map_iff in H. destruct H as [[f' w'] [Ef H]]. cbn [fst] in Ef. subst f'.
    apply in_map_iff. exists (f, w'). split; [reflexivity|].
    apply (in_take_out _ i (pending st) (f, w') (p, w) H G).
    intros [= ->]. rewrite jsstring_eqb_refl in E. discriminate E.
Qed.


(** ** Links and suggestions *)

(** The state after [getHashForPath] is built by a sequence that adds no
    other path of the same code, if the one before was. *)
Lemma copy_link_state (ops : list op) (p : jsstring) :
  unshared (added ops) p ->
  exists ops', fst (getHashForPath (run ops init) p) = run ops' init
               /\ unshared (added ops') p.
Proof.
  intros Hu. unfold getHashForPath.
  destruct (JsMap.get (pathsToHashes (run ops init)) p) as [[|u h]|].
  2: exists ops; split; [reflexivity | exact Hu].
  all: exists (ops ++ [AddPath p]); split; [rewrite run_app; reflexivity|];
    intros q Hq E; rewrite added_app, in_app_iff in Hq;
    destruct Hq as [Hq|[<-|[]]]; [exact (Hu q Hq E) | reflexivity].
Qed.

Lemma suggestion_entry (this : NoteCodes) (query : jsstring) (entry : Entry) :
  In entry (snd (getSuggestions this query)) ->
  exists c p, entry = {| hash := c; path := p |}
              /\ In (c, p) (hashesToPaths this)
              /\ startsWith c (formatHash query) = true.
Proof.
  unfold getSuggestions. cbn [snd]. rewrite suggestions_loop. cbn [app].
  intros Hin. apply in_map_iff in Hin. destruct Hin as [[c p] [E Hin]].
  apply filter_In in Hin. destruct Hin as [Hin Hs].
  exists c, p. split; [symmetry; exact E|]. split; [exact Hin | exact Hs].
Qed.


(** ** The shape of a formatted string *)

Lemma separated_prefix (x r : jsstring) :
  exists r', separated (x ++ r) = separated x ++ r'.
Proof.
  unfold separated, slice_to, slice_from. rewrite length_app.
  destruct (2 <? length x)%nat eqn:Lx.
  - apply Nat.ltb_lt in Lx.
    assert (L : (2 <? length x + length r)%nat = true) by (apply Nat.ltb_lt; lia).
    rewrite L. exists r. rewrite firstn_app, skipn_app.
    replace (2 - length x)%nat with 0%nat by lia. cbn [firstn skipn].
    rewrite app_nil_r, <- !app_assoc. reflexivity.
  - apply Nat.ltb_ge in Lx. destruct (2 <? length x + length r)%nat.
    + rewrite firstn_app, (firstn_all2 x) by exact Lx.
      rewrite <- app_assoc. eexists. reflexivity.
    + exists r. reflexivity.
Qed.

Lemma formatHash_app (s t : jsstring) :
  exists r, formatHash (s ++ t) = formatHash s ++ r.
Proof.
  rewrite !formatHash_separated. unfold kept, slice_to.
  rewrite normalized_app, firstn_app. apply separated_prefix.
Qed.

Lemma startsWith_trans (s a b : jsstring) :
  startsWith s (a ++ b) = true -> startsWith s a = true.
Proof.
  rewrite !startsWith_app. intros [r ->]. exists (b ++ r). symmetry. apply app_assoc.
Qed.

Lemma filter_narrow (A : Type) (f g : A -> bool) (l : list A) :
  (forall x, f x = true -> g x = true) -> filter f (filter g l) = filter f l.
Proof.
  intros H. induction l as [|x l IH]; [reflexivity|]. cbn [filter].
  destruct (g x) eqn:G; cbn [filter].
  - rewrite IH. reflexivity.
  - destruct (f x) eqn:F; [|exact IH]. rewrite (H x F) in G. discriminate G.
Qed.

Lemma filter_true (A : Type) (f : A -> bool) (l : list A) :
  (forall x, In x l -> f x = true) -> filter f l = l.
Proof.
  induction l as [|x l IH]; intros H; [reflexivity|]. cbn [filter].
  rewrite (H x (or_introl eq_refl)), IH; [reflexivity|].
  intros y Hy. apply H. right. exact Hy.
Qed.

Lemma formatHash_length (s : jsstring) : (length (formatHash s) <= 5)%nat.
Proof.
  rewrite formatHash_separated. pose proof (separated_length (kept s)).
  pose proof (kept_length s). lia.
Qed.

Lemma padEnd_length (s : jsstring) (c : code_unit) (n : nat) :
  (length s <= n)%nat ->
  padEnd n [c] s = s ++ repeat c (n - length s) /\ length (padEnd n [c] s) = n.
Proof.
  intros L. unfold padEnd. rewrite (proj2 (padding_single c (n - length s))).
  split; [reflexivity|]. rewrite length_app, repeat_length. lia.
Qed.

(** ** Codes and digest bytes *)

Lemma symbol_injective (d d' : N) :
  (d < 32)%N -> (d' < 32)%N -> symbol d = symbol d' -> d = d'.
Proof.
  intros H H' E. unfold symbol in E.
  assert (N : NoDup base32Alphabet) by (apply NoDup_by_nodup; vm_compute; reflexivity).
  apply N2Nat.inj.
  apply (proj1 (NoDup_nth base32Alphabet 0%N) N).
  - change (length base32Alphabet) with 32%nat. lia.
  - change (length base32Alphabet) with 32%nat. lia.
  - exact E.
Qed.

Lemma code_of_injective (n m : N) :
  (n < 32 ^ 4)%N -> (m < 32 ^ 4)%N -> code_of n = code_of m -> n = m.
Proof.
  change (32 ^ 4)%N with 1048576%N. intros Hn Hm E. unfold code_of in E.
  change (32 ^ 3)%N with (32 * 32 * 32)%N in E.
  change (32 ^ 2)%N with (32 * 32)%N in E.
  rewrite <- !N.Div0.div_div in E.
  injection E as E3 E2 E1 E0.
  apply symbol_injective in E3, E2, E1, E0; try (apply N.mod_lt; discriminate).
  assert (D : forall k : N, (k = 32 * (k / 32) + k mod 32)%N)
    by (intros k; apply N.div_mod; discriminate).
  assert (B : forall k : N, (k mod 32 < 32)%N)
    by (intros k; apply N.mod_lt; discriminate).
  assert (S3 : forall k : N, (k < 1048576 -> k / 32 / 32 / 32 < 32)%N).
  { intros k Hk. repeat apply N.Div0.div_lt_upper_bound. exact Hk. }
  rewrite !N.mod_small in E3 by (apply S3; assumption).
  pose proof (D n) as Dn0. pose proof (D (n / 32)%N) as Dn1.
  pose proof (D (n / 32 / 32)%N) as Dn2.
  pose proof (D m) as Dm0. pose proof (D (m / 32)%N) as Dm1.
  pose proof (D (m / 32 / 32)%N) as Dm2.
  lia.
Qed.

Lemma reduced_bytes (bytes : list byte) :
  Spec.reduced bytes
  = ((Spec.byte_value bytes 0 mod 16) * 65536 + Spec.byte_value bytes 1 * 256
     + Spec.byte_value bytes 2)%N.
Proof.
  unfold Spec.reduced, Spec.packed.
  change (2 ^ 16)%N with 65536%N. change (2 ^ 8)%N with 256%N.
  change (32 ^ 4)%N with 1048576%N.
  pose proof (byte_value_range bytes 0) as R0.
  pose proof (byte_value_range bytes 1) as R1.
  pose proof (byte_value_range bytes 2) as R2.
  set (b0 := Spec.byte_value bytes 0) in *. set (b1 := Spec.byte_value bytes 1) in *.
  set (b2 := Spec.byte_value bytes 2) in *.
  pose proof (N.div_mod b0 16) as D. pose proof (N.mod_lt b0 16) as M.
  symmetry. apply (N.mod_unique _ _ (b0 / 16)); lia.
Qed.

(** * Further properties of the index *)

(** X1. [addPath] returns the hash of the path and files the path under it
    in both maps, whatever the state; no other path's code and no other
    code's entry changes. *)
Theorem addPath_lookup (this : NoteCodes) (p : jsstring) :
  snd (addPath this p) = hashString p
  /\ JsMap.get (pathsToHashes (fst (addPath this p))) p = Some (hashString p)
  /\ JsMap.get (hashesToPaths (fst (addPath this p))) (hashString p) = Some p
  /\ (forall q, q <> p ->
        JsMap.get (pathsToHashes (fst (addPath this p))) q
        = JsMap.get (pathsToHashes this) q)
  /\ (forall c, c <> hashString p ->
        JsMap.get (hashesToPaths (fst (addPath this p))) c
        = JsMap.get (hashesToPaths this) c).
Proof.
  cbn [addPath fst snd hashesToPaths pathsToHashes].
  rewrite !get_set, !jsstring_eqb_refl.
  split; [reflexivity|]. split; [reflexivity|]. split; [reflexivity|]. split.
  - intros q Hq. rewrite get_set, jsstring_eqb_neq; [reflexivity | exact Hq].
  - intros c Hc. rewrite get_set, jsstring_eqb_neq; [reflexivity | exact Hc].
Qed.

(** X2. In a reachable state, after [removePath] the path is no longer
    tracked and no other path's code has changed; only the entry of the
    path's own code can have gone from code→path. Removing an untracked
    path changes nothing, so removing twice is removing once. *)
Theorem removePath_effect (this : NoteCodes) (p : jsstring) :
  reachable this ->
  JsMap.get (pathsToHashes (removePath this p)) p = None
  /\ (forall q, q <> p ->
        JsMap.get (pathsToHashes (removePath this p)) q
        = JsMap.get (pathsToHashes this) q)
  /\ (forall c, c <> hashString p ->
        JsMap.get (hashesToPaths (removePath this p)) c
        = JsMap.get (hashesToPaths this) c)
  /\ (JsMap.get (pathsToHashes this) p = None -> removePath this p = this)
  /\ removePath (removePath this p) p = removePath this p.
Proof.
  intros Hr. destruct (reachable_invariants Hr) as [Hc _].
  assert (Hnone : forall st, JsMap.get (pathsToHashes st) p = None -> removePath st p = st).
  { intros st G. unfold removePath. rewrite G. reflexivity. }
  pose proof (removePath_untracks this p Hr) as Hgone.
  split; [exact Hgone|]. split; [|split; [|split; [exact (Hnone this) | exact (Hnone _ Hgone)]]].
  - intros q Hq. unfold removePath.
    destruct (JsMap.get (pathsToHashes this) p) as [[|u h]|]; try reflexivity.
    cbn [pathsToHashes]. rewrite get_delete, jsstring_eqb_neq; [reflexivity | exact Hq].
  - intros c Hne. unfold removePath.
    destruct (JsMap.get (pathsToHashes this) p) as [[|u h]|] eqn:G; try reflexivity.
    cbn [hashesToPaths]. apply Hc in G.
    rewrite get_delete, jsstring_eqb_neq; [reflexivity|]. rewrite G. exact Hne.
Qed.

Lemma removePath_effect_witness :
  let this := run [AddPath (lit "a.md"); AddPath (lit "b.md")] init in
  JsMap.get (pathsToHashes (removePath this (lit "a.md"))) (lit "a.md") = None
  /\ JsMap.get (pathsToHashes (removePath this (lit "a.md"))) (lit "b.md")
     = JsMap.get (pathsToHashes this) (lit "b.md").
Proof.
  cbv zeta.
  destruct (removePath_effect (run [AddPath (lit "a.md"); AddPath (lit "b.md")] init)
              (lit "a.md")) as [H1 [H2 _]].
  - exists [AddPath (lit "a.md"); AddPath (lit "b.md")]. reflexivity.
  - split; [exact H1 | apply H2; discriminate].
Defined.

(** X3. Once a tracked path is removed, its code resolves to nothing: the
    notice names the code, also when another tracked path has the same
    code. *)
Theorem removed_code_not_found
  (vault : jsstring -> bool) (this : NoteCodes) (p : jsstring) :
  reachable this ->
  JsMap.get (pathsToHashes this) p <> None ->
  JsMap.get (hashesToPaths (removePath this p)) (hashString p) = None
  /\ snd (openNoteForHash vault (removePath this p) (hashString p))
     = NoSuchNoteCode (hashString p).
Proof.
  intros Hr Ht. destruct (reachable_invariants Hr) as [Hc _].
  assert (G : JsMap.get (hashesToPaths (removePath this p)) (hashString p) = None).
  { unfold removePath.
    destruct (JsMap.get (pathsToHashes this) p) as [[|u h]|] eqn:G.
    - apply Hc in G. destruct (hashString_nonempty p) as [u [h E]].
      rewrite E in G. discriminate G.
    - cbn [hashesToPaths]. apply Hc in G. rewrite <- G.
      rewrite get_delete, jsstring_eqb_refl. reflexivity.
    - elim Ht. reflexivity. }
  split; [exact G|]. unfold openNoteForHash. rewrite formatHash_code, G.
  cbn [snd]. f_equal. unfold padEnd. rewrite hashString_length.
  cbn [Nat.sub padding]. apply app_nil_r.
Qed.

Lemma removed_code_not_found_witness :
  let this := run [AddPath (lit "note298.md"); AddPath (lit "note744.md")] init in
  JsMap.get (pathsToHashes (removePath this (lit "note298.md"))) (lit "note744.md")
  = Some (lit "ZD-T0")
  /\ snd (openNoteForHash (fun _ => true) (removePath this (lit "note298.md"))
            (hashString (lit "note298.md")))
     = NoSuchNoteCode (hashString (lit "note298.md")).
Proof.
  cbv zeta. split; [vm_compute; reflexivity|].
  apply (removed_code_not_found (fun _ => true)
           (run [AddPath (lit "note298.md"); AddPath (lit "note744.md")] init)
           (lit "note298.md")).
  - exists [AddPath (lit "note298.md"); AddPath (lit "note744.md")]. reflexivity.
  - vm_compute. discriminate.
Defined.

(** X4. In a reachable state [getHashForPath] returns the hash of the path
    and leaves the path tracked under it; no other path's code changes, and
    a path that was not tracked before owns its code's entry afterwards. *)
Theorem getHashForPath_tracks (this : NoteCodes) (p : jsstring) :
  reachable this ->
  snd (getHashForPath this p) = hashString p
  /\ JsMap.get (pathsToHashes (fst (getHashForPath this p))) p = Some (hashString p)
  /\ (forall q, q <> p ->
        JsMap.get (pathsToHashes (fst (getHashForPath this p))) q
        = JsMap.get (pathsToHashes this) q)
  /\ (JsMap.get (pathsToHashes this) p = None ->
      JsMap.get (hashesToPaths (fst (getHashForPath this p))) (hashString p) = Some p).
Proof.
  intros Hr. split; [exact (getHashForPath_value this p Hr)|].
  split; [exact (getHashForPath_tracked this p Hr)|].
  split; [intros q Hq; exact (getHashForPath_others this p q Hq)|].
  intros G. unfold getHashForPath. rewrite G.
  cbn [addPath fst hashesToPaths]. rewrite get_set, jsstring_eqb_refl. reflexivity.
Qed.

Lemma getHashForPath_tracks_witness :
  let this := run [AddPath (lit "a.md")] init in
  snd (getHashForPath this (lit "b.md")) = hashString (lit "b.md")
  /\ JsMap.get (pathsToHashes (fst (getHashForPath this (lit "b.md")))) (lit "b.md")
     = Some (hashString (lit "b.md")).
Proof.
  cbv zeta.
  destruct (getHashForPath_tracks (run [AddPath (lit "a.md")] init) (lit "b.md"))
    as [H1 [H2 _]].
  - exists [AddPath (lit "a.md")]. reflexivity.
  - split; [exact H1 | exact H2].
Defined.

(** X5. In every reachable state no code is entered twice and no path is
    tracked twice, every tracked path is filed under its hash, every entry
    of code→path names a path tracked under that code, and code→path has
    at most as many entries as path→code. *)
Theorem reachable_index_shape (this : NoteCodes) :
  reachable this ->
  NoDup (JsMap.keys (hashesToPaths this))
  /\ NoDup (JsMap.keys (pathsToHashes this))
  /\ (forall p c, JsMap.get (pathsToHashes this) p = Some c -> c = hashString p)
  /\ (forall c p, JsMap.get (hashesToPaths this) c = Some p ->
                  JsMap.get (pathsToHashes this) p = Some c)
  /\ (length (JsMap.entries (hashesToPaths this))
      <= length (JsMap.entries (pathsToHashes this)))%nat.
Proof.
  intros Hr. destruct (reachable_invariants Hr) as [Hc Ho].
  destruct (reachable_nodup this Hr) as [Nh Np].
  split; [exact Nh|]. split; [exact Np|]. split; [exact Hc|]. split.
  - intros c p G. apply Ho. apply get_in. exact G.
  - unfold JsMap.entries.
    rewrite <- (length_map snd (hashesToPaths this)).
    rewrite <- (length_map fst (pathsToHashes this)).
    apply NoDup_incl_length.
    + apply nodup_values; [exact Nh|]. intros c c' p H1 H2.
      apply Ho in H1. apply Ho in H2. rewrite H1 in H2. injection H2 as H2. exact H2.
    + intros p Hin. apply in_map_iff in Hin. destruct Hin as [[c p'] [E Hin]].
      cbn [snd] in E. subst p'. apply Ho, get_in in Hin.
      apply (in_map fst) in Hin. exact Hin.
Qed.

Lemma reachable_index_shape_witness :
  let this := run [AddPath (lit "note298.md"); AddPath (lit "note744.md")] init in
  (length (JsMap.entries (hashesToPaths this))
   <= length (JsMap.entries (pathsToHashes this)))%nat.
Proof.
  cbv zeta.
  apply (reachable_index_shape
           (run [AddPath (lit "note298.md"); AddPath (lit "note744.md")] init)).
  exists [AddPath (lit "note298.md"); AddPath (lit "note744.md")]. reflexivity.
Defined.

(** * The handlers under interleaving *)

(** X6. Whatever the handlers do and in whatever order the digests
    resolve, the index is one that a sequence of [addPath] and [removePath]
    builds from the empty index: what holds of every reachable state holds
    of the running plugin. *)
Theorem played_index_reachable
  (e : env) (files : list jsstring) (inputs : list (env * input)) :
  reachable (index (play (fst (onload e files)) inputs)).
Proof.
  apply reachable_play. unfold onload. rewrite index_start_setStatusBar.
  exact reachable_init.
Qed.

(** X7. After [onload], once every digest it started is there, in whatever
    order, every file of the vault and the active file are tracked under
    their hashes. *)
Theorem loaded_any_order
  (e : env) (files : list jsstring) (inputs : list (env * input)) :
  Forall (fun x => exists i, snd x = Resolves i) inputs ->
  pending (play (fst (onload e files)) inputs) = [] ->
  forall f, In f files \/ activeFile e = Some f ->
    JsMap.get (pathsToHashes (index (play (fst (onload e files)) inputs))) f
    = Some (hashString f).
Proof.
  intros Hres Hdone f Hf.
  assert (H0 : in_progress (fst (onload e files)) f).
  { right. unfold onload, start_setStatusBar, start_getHashForPath.
    destruct (activeFile e) as [a|] eqn:Ea; cbn [index init pathsToHashes JsMap.empty
      JsMap.get fst start_addPath pending].
    - rewrite map_app, map_map, in_app_iff. cbn [fst map].
      destruct Hf as [Hf|[= ->]]; [left; rewrite map_id; exact Hf | right; left; reflexivity].
    - rewrite map_map. cbn [fst]. rewrite map_id.
      destruct Hf as [Hf|Hf]; [exact Hf | discriminate Hf]. }
  assert (H : in_progress (play (fst (onload e files)) inputs) f).
  { revert H0. generalize (fst (onload e files)). clear Hdone.
    induction Hres as [|[e' x] inputs [i Ex] _ IH]; intros st H0; [exact H0|].
    cbn [snd] in Ex. subst x. apply IH. cbn [fst snd react].
    apply in_progress_resolve. exact H0. }
  destruct H as [H|H]; [exact H|]. rewrite Hdone in H. contradiction H.
Qed.

Lemma loaded_any_order_witness :
  let e := {| activeFile := None; hasDrawer := false; vault := fun _ => true |} in
  JsMap.get
    (pathsToHashes
       (index (play (fst (onload e [lit "a.md"; lit "b.md"]))
                 [(e, Resolves 1); (e, Resolves 0)])))
    (lit "a.md")
  = Some (hashString (lit "a.md")).
Proof.
  cbv zeta.
  apply (loaded_any_order
           {| activeFile := None; hasDrawer := false; vault := fun _ => true |}
           [lit "a.md"; lit "b.md"]
           [({| activeFile := None; hasDrawer := false; vault := fun _ => true |}, Resolves 1);
            ({| activeFile := None; hasDrawer := false; vault := fun _ => true |}, Resolves 0)]).
  - repeat (apply Forall_cons; [eexists; reflexivity|]). apply Forall_nil.
  - vm_compute. reflexivity.
  - left. left. reflexivity.
Defined.

(** * Commands, links and the modal *)

(** X8. With no active file the copy commands write nothing and leave the
    index alone. With an active file, in a reachable state, they always
    write: the hash of its path, or the link that ends in it. *)
Theorem copy_commands (this : NoteCodes) (active : option jsstring) :
  reachable this ->
  (active = None ->
   copyNoteCode this active = (this, None)
   /\ copyNoteCodeURL this active = (this, None))
  /\ (forall p, active = Some p ->
      copyNoteCode this active
      = (fst (getHashForPath this p), Some (hashString p))
      /\ copyNoteCodeURL this active
         = (fst (getHashForPath this p),
            Some (lit "obsidian://note-codes/open?code=" ++ hashString p))).
Proof.
  intros Hr. split.
  - intros ->. split; reflexivity.
  - intros p ->. unfold copyNoteCode, copyNoteCodeURL, getHashForActiveFile.
    cbn [fst snd]. rewrite (getHashForPath_value this p Hr).
    destruct (hashString_nonempty p) as [u [h E]]. rewrite E. split; reflexivity.
Qed.

Lemma copy_commands_witness :
  copyNoteCode (run [AddPath (lit "a.md")] init) (Some (lit "b.md"))
  = (fst (getHashForPath (run [AddPath (lit "a.md")] init) (lit "b.md")),
     Some (hashString (lit "b.md"))).
Proof.
  destruct (copy_commands (run [AddPath (lit "a.md")] init) (Some (lit "b.md")))
    as [_ H].
  - exists [AddPath (lit "a.md")]. reflexivity.
  - exact (proj1 (H (lit "b.md") eq_refl)).
Defined.

(** X9. A copied link leads back: when no other added path has the code of
    the active file, resolving the link's code after [copyNoteCodeURL] opens
    that file, or reports it missing from the vault. *)
Theorem copied_link_opens
  (vault : jsstring -> bool) (ops : list op) (p : jsstring) :
  unshared (added ops) p ->
  p <> [] ->
  snd (copyNoteCodeURL (run ops init) (Some p))
  = Some (lit "obsidian://note-codes/open?code=" ++ hashString p)
  /\ snd (openNoteForHash vault (fst (copyNoteCodeURL (run ops init) (Some p)))
            (hashString p))
     = if vault p then OpenFile p else FileNotFound p.
Proof.
  intros Hu Hp.
  assert (Hr : reachable (run ops init)) by (exists ops; reflexivity).
  destruct (copy_link_state ops p Hu) as [ops' [Es Hu']].
  unfold copyNoteCodeURL, getHashForActiveFile. cbn [fst snd].
  rewrite (getHashForPath_value (run ops init) p Hr).
  destruct (hashString_nonempty p) as [u [h E]]. rewrite E. cbn [fst snd].
  split; [reflexivity|]. rewrite <- E.
  pose proof (getHashForPath_tracked (run ops init) p Hr) as Ht.
  rewrite Es in Ht |- *.
  unfold openNoteForHash. rewrite formatHash_code.
  rewrite (owner_unshared ops' p (hashString p) Hu' Ht).
  destruct p as [|x p]; [elim Hp; reflexivity|].
  destruct (vault (x :: p)); reflexivity.
Qed.

Lemma copied_link_opens_witness :
  snd (openNoteForHash (fun _ => true)
         (fst (copyNoteCodeURL (run [AddPath (lit "a.md")] init) (Some (lit "b.md"))))
         (hashString (lit "b.md")))
  = OpenFile (lit "b.md").
Proof.
  apply (copied_link_opens (fun _ => true) [AddPath (lit "a.md")] (lit "b.md")).
  - intros q [<-|[]] Hq. vm_compute in Hq. discriminate Hq.
  - discriminate.
Defined.

(** X10. Resolution and search see their input only through the formatter:
    an input and its formatted form give the same result. *)
Theorem formatted_input_same (vault : jsstring -> bool) (this : NoteCodes) (s : jsstring) :
  openNoteForHash vault this (formatHash s) = openNoteForHash vault this s
  /\ getSuggestions this (formatHash s) = getSuggestions this s.
Proof.
  unfold openNoteForHash, getSuggestions. rewrite formatHash_twice.
  split; reflexivity.
Qed.

(** X11. In a reachable state, choosing a suggestion resolves to the path
    it shows: the file is opened, or reported missing from the vault, and
    the index is not changed. The code of a suggestion starts with the
    formatted query. *)
Theorem chosen_suggestion_opens
  (vault : jsstring -> bool) (this : NoteCodes) (query : jsstring) (entry : Entry) :
  reachable this ->
  In entry (snd (getSuggestions this query)) ->
  path entry <> [] ->
  startsWith (hash entry) (formatHash query) = true
  /\ onChooseSuggestion vault this entry
     = (this, if vault (path entry) then OpenFile (path entry)
              else FileNotFound (path entry)).
Proof.
  intros Hr Hin Hp. destruct (reachable_invariants Hr) as [Hc Ho].
  destruct (reachable_nodup this Hr) as [Nh _].
  destruct (suggestion_entry this query entry Hin) as [c [p [-> [He Hs]]]].
  cbn [hash path] in *. split; [exact Hs|].
  unfold onChooseSuggestion, openNoteForHash. cbn [hash].
  pose proof (Hc _ _ (Ho _ _ He)) as Ec.
  rewrite Ec, formatHash_code, <- Ec.
  rewrite (@in_get jsstring (hashesToPaths this) c p Nh He).
  destruct p as [|x p]; [elim Hp; reflexivity|].
  destruct (vault (x :: p)); reflexivity.
Qed.

Lemma chosen_suggestion_opens_witness :
  onChooseSuggestion (fun _ => true) (run [AddPath (lit "a.md")] init)
    {| hash := lit "XK-6C"; path := lit "a.md" |}
  = (run [AddPath (lit "a.md")] init, OpenFile (lit "a.md")).
Proof.
  apply (chosen_suggestion_opens (fun _ => true) (run [AddPath (lit "a.md")] init)
           (lit "xk") {| hash := lit "XK-6C"; path := lit "a.md" |}).
  - exists [AddPath (lit "a.md")]. reflexivity.
  - vm_compute. left. reflexivity.
  - discriminate.
Defined.

(** X12. A rendered suggestion shows its path and its whole code: the part
    in bold, which is the formatted query, followed by the rest. *)
Theorem rendered_suggestion (this : NoteCodes) (query : jsstring) (entry : Entry) :
  In entry (snd (getSuggestions this query)) ->
  title (renderSuggestion (fst (getSuggestions this query)) entry) = path entry
  /\ strong (renderSuggestion (fst (getSuggestions this query)) entry)
     = formatHash query
  /\ strong (renderSuggestion (fst (getSuggestions this query)) entry)
     ++ rest (renderSuggestion (fst (getSuggestions this query)) entry)
     = hash entry.
Proof.
  intros Hin. destruct (suggestion_entry this query entry Hin) as [c [p [-> [_ Hs]]]].
  cbn [renderSuggestion title strong rest hash path getSuggestions fst] in *.
  split; [reflexivity|]. split; [reflexivity|].
  apply startsWith_app in Hs. destruct Hs as [r ->].
  unfold slice_from. rewrite skipn_app, Nat.sub_diag, skipn_all. reflexivity.
Qed.

Lemma rendered_suggestion_witness :
  strong (renderSuggestion (fst (getSuggestions (run [AddPath (lit "a.md")] init) (lit "xk")))
            {| hash := lit "XK-6C"; path := lit "a.md" |})
  ++ rest (renderSuggestion (fst (getSuggestions (run [AddPath (lit "a.md")] init) (lit "xk")))
             {| hash := lit "XK-6C"; path := lit "a.md" |})
  = lit "XK-6C".
Proof.
  apply (rendered_suggestion (run [AddPath (lit "a.md")] init) (lit "xk")
           {| hash := lit "XK-6C"; path := lit "a.md" |}).
  vm_compute. left. reflexivity.
Defined.

(** X13. In a reachable state a query that formats to a full code finds at
    most one entry: the one [openNoteForHash] would resolve. *)
Theorem full_code_search (this : NoteCodes) (query : jsstring) :
  reachable this ->
  length (formatHash query) = 5%nat ->
  snd (getSuggestions this query)
  = match JsMap.get (hashesToPaths this) (formatHash query) with
    | Some p => [{| hash := formatHash query; path := p |}]
    | None => []
    end.
Proof.
  intros Hr L. destruct (reachable_nodup this Hr) as [Nh _].
  unfold getSuggestions. cbn [snd]. rewrite suggestions_loop. cbn [app].
  unfold JsMap.entries.
  rewrite (@filter_key jsstring (hashesToPaths this) (formatHash query)
             (fun e => startsWith (fst e) (formatHash query)) Nh).
  - destruct (JsMap.get (hashesToPaths this) (formatHash query)); reflexivity.
  - intros [c p] Hin. cbn [fst]. apply startsWith_same_length.
    rewrite L. apply (@in_get jsstring (hashesToPaths this) c p Nh) in Hin.
    exact (@reachable_key_length this c p Hr Hin).
Qed.

Lemma full_code_search_witness :
  snd (getSuggestions (run [AddPath (lit "a.md"); AddPath (lit "b.md")] init)
         (lit "xk6c"))
  = [{| hash := lit "XK-6C"; path := lit "a.md" |}].
Proof.
  rewrite (full_code_search (run [AddPath (lit "a.md"); AddPath (lit "b.md")] init)
             (lit "xk6c")).
  - vm_compute. reflexivity.
  - exists [AddPath (lit "a.md"); AddPath (lit "b.md")]. reflexivity.
  - vm_compute. reflexivity.
Defined.

(** X14. A query with nothing left after formatting, the empty one among
    them, lists every entry of the index in its order. *)
Theorem blank_query_lists_all (this : NoteCodes) (query : jsstring) :
  formatHash query = [] ->
  getSuggestions this query
  = ([], map (fun e => {| hash := fst e; path := snd e |})
           (JsMap.entries (hashesToPaths this))).
Proof.
  intros E. unfold getSuggestions. rewrite E, suggestions_loop. cbn [app].
  f_equal. f_equal. apply filter_true. intros e _.
  apply startsWith_app. exists (fst e). reflexivity.
Qed.

Lemma blank_query_lists_all_witness :
  getSuggestions search_example (lit " -")
  = ([], map (fun e => {| hash := fst e; path := snd e |})
           (JsMap.entries (hashesToPaths search_example))).
Proof. apply (blank_query_lists_all search_example (lit " -")). reflexivity. Defined.

(** X15. A formatted string has at most five characters and never three;
    the separator is at index 2 and nowhere else, and every other character
    is a symbol of the alphabet. *)
Theorem formatHash_shape (s : jsstring) :
  (length (formatHash s) <= 5)%nat
  /\ length (formatHash s) <> 3%nat
  /\ (forall i c, nth_error (formatHash s) i = Some c ->
        (i = 2%nat /\ c = N_of_ascii "-") \/ (i <> 2%nat /\ In c base32Alphabet)).
Proof.
  rewrite formatHash_separated.
  pose proof (kept_canonical s) as Hc. pose proof (kept_length s) as Hl.
  destruct (kept s) as [|a [|b [|c [|d [|x k]]]]];
    cbn [length] in Hl; try lia; cbn;
    (split; [lia|]); (split; [lia|]); intros i u H;
    repeat (destruct i as [|i]; cbn in H;
            [injection H as <-;
             first [ right; split; [lia|];
                     revert Hc; rewrite !Forall_cons_iff; tauto
                   | left; split; reflexivity ] |]);
    destruct i; discriminate H.
Qed.

(** X16. Typing on only extends the formatted query, so the suggestions for
    a longer input are those for the shorter one that still match. *)
Theorem typing_narrows (this : NoteCodes) (s t : jsstring) :
  (exists r, formatHash (s ++ t) = formatHash s ++ r)
  /\ snd (getSuggestions this (s ++ t))
     = filter (fun e => startsWith (hash e) (formatHash (s ++ t)))
         (snd (getSuggestions this s)).
Proof.
  split; [apply formatHash_app|].
  unfold getSuggestions. cbn [snd]. rewrite !suggestions_loop. cbn [app].
  destruct (formatHash_app s t) as [r ->].
  induction (JsMap.entries (hashesToPaths this)) as [|e l IH]; [reflexivity|].
  cbn [filter]. destruct (startsWith (fst e) (formatHash s ++ r)) eqn:E.
  - rewrite (startsWith_trans _ _ _ E). cbn [map filter hash]. rewrite E, IH.
    reflexivity.
  - destruct (startsWith (fst e) (formatHash s)); [|exact IH].
    cbn [map filter hash]. rewrite E. exact IH.
Qed.

(** X17. Two paths get the same code exactly when their digests agree on
    the low half of the first byte and on the second and third bytes: the
    codes stand for 32^4 values, one code each. *)
Theorem same_code_iff (p q : jsstring) :
  hashString p = hashString q
  <-> (digest_byte p 0 mod 16 = digest_byte q 0 mod 16
       /\ digest_byte p 1 = digest_byte q 1
       /\ digest_byte p 2 = digest_byte q 2)%N.
Proof.
  rewrite !hashString_code. unfold digest_byte.
  generalize (SHA256.digest (Utf8.encode p)) (SHA256.digest (Utf8.encode q)).
  intros dp dq. split.
  - intros E. apply code_of_injective in E; try apply reduced_range.
    rewrite !reduced_bytes in E.
    pose proof (byte_value_range dp 1). pose proof (byte_value_range dp 2).
    pose proof (byte_value_range dq 1). pose proof (byte_value_range dq 2).
    pose proof (N.mod_lt (Spec.byte_value dp 0) 16).
    pose proof (N.mod_lt (Spec.byte_value dq 0) 16).
    lia.
  - intros [E0 [E1 E2]]. f_equal. rewrite !reduced_bytes, E0, E1, E2. reflexivity.
Qed.

(** X18. In a reachable state the status bar shows five characters with
    the separator in the middle: the placeholder when no file is open, and
    the hash of the open file otherwise, which is tracked from then on. The
    mobile drawer, where there is one, shows the same text. *)
Theorem status_bar_text (hasDrawer : bool) (this : NoteCodes) (file : option jsstring) :
  reachable this ->
  length (statusBarText (snd (setStatusBar hasDrawer this file))) = 5%nat
  /\ nth_error (statusBarText (snd (setStatusBar hasDrawer this file))) 2
     = Some (N_of_ascii "-")
  /\ drawerText (snd (setStatusBar hasDrawer this file))
     = (if hasDrawer
        then Some (statusBarText (snd (setStatusBar hasDrawer this file)))
        else None)
  /\ (file = None ->
      fst (setStatusBar hasDrawer this file) = this
      /\ statusBarText (snd (setStatusBar hasDrawer this file)) = lit "__-__")
  /\ (forall p, file = Some p ->
      statusBarText (snd (setStatusBar hasDrawer this file)) = hashString p
      /\ JsMap.get (pathsToHashes (fst (setStatusBar hasDrawer this file))) p
         = Some (hashString p)).
Proof.
  intros Hr. unfold setStatusBar. cbn [fst snd statusBarText drawerText].
  destruct file as [p|].
  - rewrite (getHashForPath_value this p Hr).
    split; [apply hashString_length|].
    split; [rewrite hashString_code; reflexivity|]. split; [reflexivity|].
    split; [discriminate|]. intros p' E. injection E as <-.
    split; [reflexivity | exact (getHashForPath_tracked this p Hr)].
  - split; [reflexivity|]. split; [reflexivity|]. split; [reflexivity|].
    split; [intros _; split; reflexivity | discriminate].
Qed.

Lemma status_bar_text_witness :
  statusBarText (snd (setStatusBar false (run [AddPath (lit "a.md")] init)
                        (Some (lit "b.md"))))
  = hashString (lit "b.md").
Proof.
  destruct (status_bar_text false (run [AddPath (lit "a.md")] init) (Some (lit "b.md")))
    as [_ [_ [_ [_ H]]]].
  - exists [AddPath (lit "a.md")]. reflexivity.
  - exact (proj1 (H (lit "b.md") eq_refl)).
Defined.

(** X19. The not-found notice always shows five characters: the formatted
    input, filled up with underscores. *)
Theorem not_found_notice
  (vault : jsstring -> bool) (this : NoteCodes) (s shown : jsstring) :
  snd (openNoteForHash vault this s) = NoSuchNoteCode shown ->
  shown = formatHash s ++ repeat (N_of_ascii "_") (5 - length (formatHash s))
  /\ length shown = 5%nat.
Proof.
  unfold openNoteForHash.
  destruct (padEnd_length (formatHash s) (N_of_ascii "_") 5 (formatHash_length s))
    as [E L].
  change (lit "_") with [N_of_ascii "_"].
  destruct (JsMap.get (hashesToPaths this) (formatHash s)) as [[|u p]|];
    try (destruct (vault (u :: p)); discriminate);
    cbn [snd]; intros [= <-]; split; assumption.
Qed.

Lemma not_found_notice_witness :
  lit "XK-6_" = formatHash (lit "xk6") ++ repeat (N_of_ascii "_") (5 - length (formatHash (lit "xk6")))
  /\ length (lit "XK-6_") = 5%nat.
Proof.
  apply (not_found_notice (fun _ => true) init (lit "xk6") (lit "XK-6_")).
  reflexivity.
Defined.

